(** * pygannuum: GameObject, renderers, updaters and particles

    A shallow embedding of [gameobject.py].  Python objects live in a
    store indexed by references, methods are computations in a state and
    exception monad, and Python's [float] is Rocq's binary64 [float]. *)

From Stdlib Require Import ZArith Floats Lia.
From stdpp Require Import base option gmap.

Local Open Scope Z_scope.

(** ** Exceptions and results *)

Inductive exn :=
  | TypeError
  | AttributeError
  | NotImplementedError
  | ZeroDivisionError
  | ValueError
  | OverflowError
  (** Not a Python exception: the use of a reference that is not in the
      store, which no Python program can hold. *)
  | InvalidReference.

Inductive result (A : Type) :=
  | Return (a : A)
  | Raise (e : exn).
Arguments Return {A} a.
Arguments Raise {A} e.

(** ** Python numbers

    [rotation] is annotated [float] but Python accepts any number; an
    [int] and a [float] take different paths through [%]. *)

Inductive number :=
  | PyInt (z : Z)
  | PyFloat (f : float).

(** C's [fmod] on binary64: the exact remainder of the truncated
    division, with the sign of the dividend. *)
Definition SFfmod (x y : spec_float) : spec_float :=
  match x, y with
  | S754_nan, _ | _, S754_nan => S754_nan
  | S754_infinity _, _ => S754_nan
  | _, S754_zero _ => S754_nan
  | S754_zero _, _ => x
  | _, S754_infinity _ => x
  | S754_finite sx mx ex, S754_finite _ my ey =>
      let e := Z.min ex ey in
      let X := Zpos mx * 2 ^ (ex - e) in
      let Y := Zpos my * 2 ^ (ey - e) in
      match X mod Y with
      | Zpos r => binary_normalize prec emax (cond_Zopp sx (Zpos r)) e false
      | _ => S754_zero sx
      end
  end.

Definition fmod (x y : float) : float :=
  SF2Prim (SFfmod (Prim2SF x) (Prim2SF y)).

Definition copysign (x y : float) : float :=
  if get_sign y then (- abs x)%float else abs x.

(** CPython's [float_rem] for a nonzero divisor: [fmod], then the
    remainder is moved to the sign of the divisor. *)
Definition float_rem (vx wx : float) : float :=
  let md := fmod vx wx in
  if negb (md =? 0)%float then
    if negb (Bool.eqb (wx <? 0)%float (md <? 0)%float) then (md + wx)%float else md
  else copysign 0%float wx.

(** [r % 360].  The divisor is the literal [360], so the
    [ZeroDivisionError] of [%] cannot occur. *)
Definition py_mod_360 (r : number) : number :=
  match r with
  | PyInt z => PyInt (z mod 360)
  | PyFloat f => PyFloat (float_rem f 360%float)
  end.

(** [round(x)] of a float: the nearest integer, ties to even; it raises
    on NaN and on the infinities. *)
Definition round_half_even (m e : Z) : Z :=
  if 0 <=? e then m * 2 ^ e
  else
    let d := 2 ^ (- e) in
    let q := m / d in
    match 2 * (m mod d) ?= d with
    | Lt => q
    | Gt => q + 1
    | Eq => if Z.even q then q else q + 1
    end.

Definition py_round (x : float) : result Z :=
  match Prim2SF x with
  | S754_nan => Raise ValueError
  | S754_infinity _ => Raise OverflowError
  | S754_zero _ => Return 0
  | S754_finite s m e => Return (cond_Zopp s (round_half_even (Zpos m) e))
  end.

(** [int] to [float], as [/] does for an [int] operand: correctly
    rounded, [OverflowError] past the largest finite double. *)
Definition float_of_int (z : Z) : result float :=
  match binary_normalize prec emax z 0 false with
  | S754_infinity _ => Raise OverflowError
  | sf => Return (SF2Prim sf)
  end.

(** [dt / base_fps] with [dt : float] and [base_fps : int]. *)
Definition py_truediv (dt : float) (base_fps : Z) : result float :=
  if base_fps =? 0 then Raise ZeroDivisionError
  else match float_of_int base_fps with
       | Return d => Return (dt / d)%float
       | Raise e => Raise e
       end.

(** ** pygame's vectors and rectangles *)

Module pmath.
Record Vector2 := mkVector2 { x : float; y : float }.

(** [v * k] *)
Definition mul (v : Vector2) (k : float) : Vector2 :=
  mkVector2 (x v * k)%float (y v * k)%float.

(** [v + u] *)
Definition add (v u : Vector2) : Vector2 :=
  mkVector2 (x v + x u)%float (y v + y u)%float.
End pmath.
Import pmath.

Record Rect := mkRect { left : Z; top : Z; width : Z; height : Z }.

(** The raster primitives the renderer calls into.  They are pygame's,
    not this repository's, so the development is parametric in them. *)
Class Pygame := {
  Surface : Type;
  (** [transform.scale(image, (w, h))] *)
  transform_scale : Surface -> Z * Z -> result Surface;
  (** [transform.rotate(image, angle)] *)
  transform_rotate : Surface -> number -> result Surface;
  get_width : Surface -> Z;
  get_height : Surface -> Z;
  (** [image.get_rect(center=(cx, cy))] *)
  get_rect_center : Surface -> float * float -> result Rect;
  (** [a.colliderect(b)] *)
  colliderect : Rect -> Rect -> bool;
}.

(** ** The object store *)

(** Object identity. *)
Definition ref := nat.

(** What an attribute that may be [None] holds. *)
Inductive pyval :=
  | PyNone
  | PyRef (r : ref).

Inductive class := GameObject_cls | Particle_cls.

Inductive GORenderer :=
  | BasicRenderer
  | StackRenderer (spread : Z).

(** [BasicParticleUpdater] is the one updater of the repository.
    [ForeignUpdater] stands for a callable whose signature does not take
    the single argument [dt], so that calling it raises [TypeError]
    before any of its code runs.  [ScriptedUpdater] stands for an
    updater that a program defines itself and whose signature fits:
    called with [dt], its body assigns the listed positions, in order,
    and then returns or raises as [outcome] says. *)
Inductive GOUpdater :=
  | BasicParticleUpdater (particle : pyval) (_velocity _accel : Vector2)
  | ForeignUpdater (particle : pyval)
  | ScriptedUpdater (particle : pyval) (moves : list (ref * Vector2))
      (outcome : result unit).

(** One record for [surface.blit(source, dest, area, special_flags)]. *)
Record BlitCall `{Pygame} := mkBlit {
  blit_source : Surface;
  blit_dest : Z * Z;
  blit_area : option Rect;
  blit_special_flags : Z;
}.

(** A surface drawn onto: its size and the composites it received,
    latest first. *)
Record Target `{Pygame} := mkTarget {
  target_size : Z * Z;
  blits : list BlitCall;
}.

(** The attributes of a [GameObject] or [Particle] instance; [None] is
    an attribute not assigned yet. *)
Record GameObject `{Pygame} := mkGameObject {
  cls : class;
  image : option Surface;
  _position : option Vector2;
  _scale : option Vector2;
  _rotation : option number;
  _renderer : option pyval;
  updater : option pyval;
  rect : option Rect;
  lifespan : option float;
}.

Record World `{Pygame} := mkWorld {
  objects : gmap ref GameObject;
  updaters : gmap ref GOUpdater;
  renderers : gmap ref GORenderer;
  (** [sprite.Group] membership: group to members. *)
  groups : gmap ref (gset ref);
  surfaces : gmap ref Target;
  next_ref : ref;
}.

(** Module-level defaults, created when the module is imported. *)
Definition DEFAULT_PARTICLE_MOTION : ref := 0%nat.
Definition DEFAULT_RENDERER : ref := 1%nat.

Definition import_module `{Pygame} : World :=
  {| objects := ∅;
     updaters := {[ DEFAULT_PARTICLE_MOTION :=
                      BasicParticleUpdater PyNone (mkVector2 0 0) (mkVector2 0 0) ]};
     renderers := {[ DEFAULT_RENDERER := BasicRenderer ]};
     groups := ∅;
     surfaces := ∅;
     next_ref := 2%nat |}.

(** ** The state and exception monad

    A raised exception keeps the store as it was when it was raised. *)

Definition M `{Pygame} (A : Type) : Type := World -> World * result A.

Definition ret `{Pygame} {A} (a : A) : M A := fun w => (w, Return a).

Definition raise `{Pygame} {A} (e : exn) : M A := fun w => (w, Raise e).

Definition bind `{Pygame} {A B} (c : M A) (k : A -> M B) : M B :=
  fun w =>
    match c w with
    | (w', Return a) => k a w'
    | (w', Raise e) => (w', Raise e)
    end.

Definition lift `{Pygame} {A} (r : result A) : M A := fun w => (w, r).

Definition exn_eqb (a b : exn) : bool :=
  match a, b with
  | TypeError, TypeError | AttributeError, AttributeError
  | NotImplementedError, NotImplementedError
  | ZeroDivisionError, ZeroDivisionError | ValueError, ValueError
  | OverflowError, OverflowError | InvalidReference, InvalidReference => true
  | _, _ => false
  end.

(** [try: c except e: h] *)
Definition try_except `{Pygame} {A} (c : M A) (e : exn) (h : M A) : M A :=
  fun w =>
    match c w with
    | (w', Raise e') => if exn_eqb e' e then h w' else (w', Raise e')
    | r => r
    end.

Declare Scope py_scope.
Delimit Scope py_scope with py.
Notation "x <- c ;; k" := (bind c (fun x => k))
  (at level 100, c at next level, k at level 200, right associativity) : py_scope.
Notation "c ;; k" := (bind c (fun _ => k))
  (at level 100, k at level 200, right associativity) : py_scope.
Local Open Scope py_scope.

(** [for x in xs: body(x)] *)
Fixpoint for_each `{Pygame} {A} (xs : list A) (body : A -> M unit) : M unit :=
  match xs with
  | [] => ret tt
  | x :: xs' => body x ;; for_each xs' body
  end.

(** ** Store access *)

Definition set_objects `{Pygame} (f : gmap ref GameObject -> gmap ref GameObject) (w : World) : World :=
  mkWorld _ (f (objects w)) (updaters w) (renderers w) (groups w) (surfaces w) (next_ref w).

Definition set_updaters `{Pygame} (f : gmap ref GOUpdater -> gmap ref GOUpdater) (w : World) : World :=
  mkWorld _ (objects w) (f (updaters w)) (renderers w) (groups w) (surfaces w) (next_ref w).

Definition set_renderers `{Pygame} (f : gmap ref GORenderer -> gmap ref GORenderer) (w : World) : World :=
  mkWorld _ (objects w) (updaters w) (f (renderers w)) (groups w) (surfaces w) (next_ref w).

Definition set_groups `{Pygame} (f : gmap ref (gset ref) -> gmap ref (gset ref)) (w : World) : World :=
  mkWorld _ (objects w) (updaters w) (renderers w) (f (groups w)) (surfaces w) (next_ref w).

Definition set_surfaces `{Pygame} (f : gmap ref Target -> gmap ref Target) (w : World) : World :=
  mkWorld _ (objects w) (updaters w) (renderers w) (groups w) (f (surfaces w)) (next_ref w).

Definition fresh `{Pygame} : M ref :=
  fun w => (mkWorld _ (objects w) (updaters w) (renderers w) (groups w) (surfaces w)
              (S (next_ref w)), Return (next_ref w)).

Definition lookup_in `{Pygame} {A} (store : World -> gmap ref A) (r : ref) : M A :=
  fun w => match store w !! r with
           | Some a => (w, Return a)
           | None => (w, Raise InvalidReference)
           end.

(** [self.<attr>]: [AttributeError] when it was never assigned. *)
Definition getattr `{Pygame} {A} (attr : GameObject -> option A) (self : ref) : M A :=
  o <- lookup_in objects self ;;
  match attr o with
  | Some a => ret a
  | None => raise AttributeError
  end.

(** [self.<attr> = v], as the record update [upd]. *)
Definition setattr `{Pygame} (self : ref) (upd : GameObject -> GameObject) : M unit :=
  o <- lookup_in objects self ;;
  fun w => (set_objects (insert self (upd o)) w, Return tt).

Definition with_image `{Pygame} (v : Surface) (o : GameObject) : GameObject :=
  mkGameObject _ (cls o) (Some v) (_position o) (_scale o) (_rotation o)
    (_renderer o) (updater o) (rect o) (lifespan o).

Definition with_position `{Pygame} (v : Vector2) (o : GameObject) : GameObject :=
  mkGameObject _ (cls o) (image o) (Some v) (_scale o) (_rotation o)
    (_renderer o) (updater o) (rect o) (lifespan o).

Definition with_scale `{Pygame} (v : Vector2) (o : GameObject) : GameObject :=
  mkGameObject _ (cls o) (image o) (_position o) (Some v) (_rotation o)
    (_renderer o) (updater o) (rect o) (lifespan o).

Definition with_rotation `{Pygame} (v : number) (o : GameObject) : GameObject :=
  mkGameObject _ (cls o) (image o) (_position o) (_scale o) (Some v)
    (_renderer o) (updater o) (rect o) (lifespan o).

Definition with_renderer `{Pygame} (v : pyval) (o : GameObject) : GameObject :=
  mkGameObject _ (cls o) (image o) (_position o) (_scale o) (_rotation o)
    (Some v) (updater o) (rect o) (lifespan o).

Definition with_updater `{Pygame} (v : pyval) (o : GameObject) : GameObject :=
  mkGameObject _ (cls o) (image o) (_position o) (_scale o) (_rotation o)
    (_renderer o) (Some v) (rect o) (lifespan o).

Definition with_rect `{Pygame} (v : Rect) (o : GameObject) : GameObject :=
  mkGameObject _ (cls o) (image o) (_position o) (_scale o) (_rotation o)
    (_renderer o) (updater o) (Some v) (lifespan o).

Definition with_lifespan `{Pygame} (v : float) (o : GameObject) : GameObject :=
  mkGameObject _ (cls o) (image o) (_position o) (_scale o) (_rotation o)
    (_renderer o) (updater o) (rect o) (Some v).

(** [object.__new__(cls)]: an instance with no attribute yet. *)
Definition alloc `{Pygame} (c : class) : M ref :=
  self <- fresh ;;
  fun w => (set_objects (insert self
              (mkGameObject _ c None None None None None None None None)) w,
            Return self).

(** ** pygame: surfaces drawn onto, and sprite groups *)

(** [surface.get_rect()] *)
Definition Surface_get_rect `{Pygame} (surface : ref) : M Rect :=
  t <- lookup_in surfaces surface ;;
  ret (mkRect 0 0 (fst (target_size t)) (snd (target_size t))).

(** [surface.blit(source, dest, area=area, special_flags=special_flags)] *)
Definition Surface_blit `{Pygame} (surface : ref) (source : Surface) (dest : Z * Z)
    (area : option Rect) (special_flags : Z) : M unit :=
  t <- lookup_in surfaces surface ;;
  fun w => (set_surfaces (insert surface
              (mkTarget _ (target_size t)
                 (mkBlit _ source dest area special_flags :: blits t))) w,
            Return tt).

(** [Sprite.kill()]: the sprite leaves every group that holds it. *)
Definition Sprite_kill `{Pygame} (self : ref) : M unit :=
  fun w => (set_groups (fmap (fun members => members ∖ {[ self ]})) w, Return tt).

(** [Sprite.add(group)] *)
Definition Sprite_add `{Pygame} (self group : ref) : M unit :=
  members <- lookup_in groups group ;;
  fun w => (set_groups (insert group (members ∪ {[ self ]})) w, Return tt).

(** [d if v is None else v] *)
Definition ref_or_default (d : ref) (v : pyval) : ref :=
  match v with
  | PyNone => d
  | PyRef r => r
  end.

(** ** GameObject: properties *)

Definition GameObject_position `{Pygame} (self : ref) : M Vector2 :=
  getattr _position self.

Definition GameObject_scale `{Pygame} (self : ref) : M Vector2 :=
  getattr _scale self.

Definition GameObject_rotation `{Pygame} (self : ref) : M number :=
  getattr _rotation self.

Definition GameObject_renderer `{Pygame} (self : ref) : M pyval :=
  getattr _renderer self.

Definition GameObject_set_position `{Pygame} (self : ref) (p : Vector2) : M unit :=
  setattr self (with_position p).

Definition GameObject_set_scale `{Pygame} (self : ref) (s : Vector2) : M unit :=
  setattr self (with_scale s).

Definition GameObject_set_rotation `{Pygame} (self : ref) (r : number) : M unit :=
  setattr self (with_rotation (py_mod_360 r)).

(** [DEFAULT_RENDERER if r is None else r] *)
Definition GameObject_set_renderer `{Pygame} (self : ref) (r : pyval) : M unit :=
  setattr self (with_renderer (PyRef (ref_or_default DEFAULT_RENDERER r))).

(** ** Renderers *)

Definition BasicRenderer_call `{Pygame} (gameobject surface : ref)
    (area : option Rect) (special_flags : Z) : M unit :=
  img <- getattr image gameobject ;;
  scale <- GameObject_scale gameobject ;;
  w <- lift (py_round (x scale)) ;;
  h <- lift (py_round (y scale)) ;;
  scaled <- lift (transform_scale img (w, h)) ;;
  rotation <- GameObject_rotation gameobject ;;
  texture <- lift (transform_rotate scaled rotation) ;;
  srect <- Surface_get_rect surface ;;
  position <- GameObject_position gameobject ;;
  trect <- lift (get_rect_center texture (x position, y position)) ;;
  if negb (colliderect srect trect) then ret tt
  else
    position <- GameObject_position gameobject ;;
    px <- lift (py_round (x position)) ;;
    py <- lift (py_round (y position)) ;;
    Surface_blit surface texture
      (px - get_width texture / 2, py - get_height texture / 2)
      area special_flags.

Definition BasicRenderer_hitbox `{Pygame} (gameobject : ref) : M Rect :=
  img <- getattr image gameobject ;;
  scale <- GameObject_scale gameobject ;;
  w <- lift (py_round (x scale)) ;;
  h <- lift (py_round (y scale)) ;;
  scaled <- lift (transform_scale img (w, h)) ;;
  rotation <- GameObject_rotation gameobject ;;
  texture <- lift (transform_rotate scaled rotation) ;;
  position <- GameObject_position gameobject ;;
  lift (get_rect_center texture (x position, y position)).

Definition StackRenderer_call `{Pygame} (gameobject surface : ref)
    (area : option Rect) (special_flags : Z) : M unit :=
  raise NotImplementedError.

Definition StackRenderer_hitbox `{Pygame} (gameobject : ref) : M Rect :=
  raise NotImplementedError.

(** [r(gameobject, surface, area=area, special_flags=special_flags)],
    dispatched on the class of [r]; [None] is not callable. *)
Definition call_renderer `{Pygame} (r : pyval) (gameobject surface : ref)
    (area : option Rect) (special_flags : Z) : M unit :=
  match r with
  | PyNone => raise TypeError
  | PyRef rr =>
      o <- lookup_in renderers rr ;;
      match o with
      | BasicRenderer => BasicRenderer_call gameobject surface area special_flags
      | StackRenderer _ => StackRenderer_call gameobject surface area special_flags
      end
  end.

(** [r.hitbox(gameobject)] *)
Definition renderer_hitbox `{Pygame} (r : pyval) (gameobject : ref) : M Rect :=
  match r with
  | PyNone => raise AttributeError
  | PyRef rr =>
      o <- lookup_in renderers rr ;;
      match o with
      | BasicRenderer => BasicRenderer_hitbox gameobject
      | StackRenderer _ => StackRenderer_hitbox gameobject
      end
  end.

(** ** Updaters *)

Definition Updater_particle `{Pygame} (self : ref) : M pyval :=
  u <- lookup_in updaters self ;;
  match u with
  | BasicParticleUpdater p _ _ => ret p
  | ForeignUpdater p => ret p
  | ScriptedUpdater p _ _ => ret p
  end.

(** The updater [u] with its [particle] attribute set to [p]. *)
Definition bound_to (p : pyval) (u : GOUpdater) : GOUpdater :=
  match u with
  | BasicParticleUpdater _ v a => BasicParticleUpdater p v a
  | ForeignUpdater _ => ForeignUpdater p
  | ScriptedUpdater _ moves outcome => ScriptedUpdater p moves outcome
  end.

(** [self.particle = p] *)
Definition Updater_set_particle `{Pygame} (self : ref) (p : pyval) : M unit :=
  u <- lookup_in updaters self ;;
  fun w => (set_updaters (insert self (bound_to p u)) w, Return tt).

Definition BasicParticleUpdater_velocity `{Pygame} (self : ref) : M Vector2 :=
  u <- lookup_in updaters self ;;
  match u with
  | BasicParticleUpdater _ v _ => ret v
  | ForeignUpdater _ | ScriptedUpdater _ _ _ => raise AttributeError
  end.

Definition BasicParticleUpdater_accel `{Pygame} (self : ref) : M Vector2 :=
  u <- lookup_in updaters self ;;
  match u with
  | BasicParticleUpdater _ _ a => ret a
  | ForeignUpdater _ | ScriptedUpdater _ _ _ => raise AttributeError
  end.

Definition BasicParticleUpdater_set_velocity `{Pygame} (self : ref) (p : Vector2) : M unit :=
  u <- lookup_in updaters self ;;
  match u with
  | BasicParticleUpdater q _ a =>
      fun w => (set_updaters (insert self (BasicParticleUpdater q p a)) w, Return tt)
  | ForeignUpdater _ | ScriptedUpdater _ _ _ => raise AttributeError
  end.

Definition BasicParticleUpdater_set_accel `{Pygame} (self : ref) (p : Vector2) : M unit :=
  u <- lookup_in updaters self ;;
  match u with
  | BasicParticleUpdater q v _ =>
      fun w => (set_updaters (insert self (BasicParticleUpdater q v p)) w, Return tt)
  | ForeignUpdater _ | ScriptedUpdater _ _ _ => raise AttributeError
  end.

(** [BasicParticleUpdater(particle, velocity, accel)] *)
Definition new_BasicParticleUpdater `{Pygame} (particle : pyval)
    (velocity accel : Vector2) : M ref :=
  self <- fresh ;;
  fun w => (set_updaters (insert self (BasicParticleUpdater particle velocity accel)) w,
            Return self).

Definition BasicParticleUpdater_call `{Pygame} (self : ref) (dt : float) : M unit :=
  particle <- Updater_particle self ;;
  match particle with
  | PyNone => raise AttributeError
  | PyRef p =>
      position <- GameObject_position p ;;
      velocity <- BasicParticleUpdater_velocity self ;;
      GameObject_set_position p (add position (mul velocity dt))
  end ;;
  velocity <- BasicParticleUpdater_velocity self ;;
  accel <- BasicParticleUpdater_accel self ;;
  BasicParticleUpdater_set_velocity self (add velocity (mul accel dt)).

(** The body of a [ScriptedUpdater]. *)
Definition ScriptedUpdater_call `{Pygame} (moves : list (ref * Vector2))
    (outcome : result unit) : M unit :=
  for_each moves (fun m => GameObject_set_position (fst m) (snd m)) ;;
  lift outcome.

Definition new_ScriptedUpdater `{Pygame} (particle : pyval)
    (moves : list (ref * Vector2)) (outcome : result unit) : M ref :=
  self <- fresh ;;
  fun w => (set_updaters (insert self (ScriptedUpdater particle moves outcome)) w,
            Return self).

(** [u(dt)], dispatched on the class of [u]; [None] is not callable. *)
Definition call_updater `{Pygame} (u : pyval) (dt : float) : M unit :=
  match u with
  | PyNone => raise TypeError
  | PyRef r =>
      o <- lookup_in updaters r ;;
      match o with
      | BasicParticleUpdater _ _ _ => BasicParticleUpdater_call r dt
      | ForeignUpdater _ => raise TypeError
      | ScriptedUpdater _ moves outcome => ScriptedUpdater_call moves outcome
      end
  end.

(** [BasicRenderer()] and [StackRenderer(spread)] *)
Definition new_renderer `{Pygame} (r : GORenderer) : M ref :=
  self <- fresh ;;
  fun w => (set_renderers (insert self r) w, Return self).

(** [pygame.Surface(size)], as a surface to draw onto. *)
Definition new_Surface `{Pygame} (size : Z * Z) : M ref :=
  self <- fresh ;;
  fun w => (set_surfaces (insert self (mkTarget _ size [])) w, Return self).

(** ** GameObject: methods *)

Definition GameObject_update `{Pygame} (self : ref) (dt : float) : M unit :=
  try_except
    (u <- getattr updater self ;;
     call_updater u dt)
    TypeError
    (ret tt).

Definition GameObject_draw `{Pygame} (self surface : ref)
    (area : option Rect) (special_flags : Z) : M unit :=
  r <- GameObject_renderer self ;;
  call_renderer r self surface None 0.

(** The [updater] setter of [Particle]. *)
Definition Particle_set_updater `{Pygame} (self : ref) (u : pyval) : M unit :=
  let r := ref_or_default DEFAULT_PARTICLE_MOTION u in
  setattr self (with_updater (PyRef r)) ;;
  Updater_set_particle r (PyRef self).

(** [self.updater = u]: a plain attribute of a [GameObject], the
    property of a [Particle]. *)
Definition set_updater `{Pygame} (self : ref) (u : pyval) : M unit :=
  o <- lookup_in objects self ;;
  match cls o with
  | GameObject_cls => setattr self (with_updater u)
  | Particle_cls => Particle_set_updater self u
  end.

Definition GameObject_init `{Pygame} (self : ref) (texture : Surface)
    (position scale : Vector2) (rotation : number)
    (renderer updater : pyval) : M unit :=
  setattr self (with_image texture) ;;
  GameObject_set_position self position ;;
  GameObject_set_scale self scale ;;
  GameObject_set_rotation self rotation ;;
  GameObject_set_renderer self renderer ;;
  set_updater self updater ;;
  r <- GameObject_renderer self ;;
  hb <- renderer_hitbox r self ;;
  setattr self (with_rect hb).

(** [GameObject(texture, position, scale, rotation, renderer, updater)] *)
Definition new_GameObject `{Pygame} (texture : Surface)
    (position scale : Vector2) (rotation : number)
    (renderer updater : pyval) : M ref :=
  self <- alloc GameObject_cls ;;
  GameObject_init self texture position scale rotation renderer updater ;;
  ret self.

(** ** Particle *)

Definition Particle_init `{Pygame} (self : ref) (texture : Surface)
    (position scale : Vector2) (rotation : number)
    (renderer updater : pyval) (lifespan : float) : M unit :=
  GameObject_init self texture position scale rotation renderer updater ;;
  set_updater self updater ;;
  setattr self (with_lifespan lifespan).

(** [Particle(texture, position, scale, rotation, renderer, updater, lifespan)] *)
Definition new_Particle `{Pygame} (texture : Surface)
    (position scale : Vector2) (rotation : number)
    (renderer updater : pyval) (lifespan : float) : M ref :=
  self <- alloc Particle_cls ;;
  Particle_init self texture position scale rotation renderer updater lifespan ;;
  ret self.

Definition Particle_update `{Pygame} (self : ref) (dt : float) (base_fps : Z) : M unit :=
  l <- getattr lifespan self ;;
  if (0 <? l)%float then
    GameObject_update self dt ;;
    l <- getattr lifespan self ;;
    d <- lift (py_truediv dt base_fps) ;;
    setattr self (with_lifespan (l - d)%float) ;;
    l <- getattr lifespan self ;;
    if (l <=? 0)%float then
      Sprite_kill self ;;
      setattr self (with_lifespan 0%float)
    else ret tt
  else
    l <- getattr lifespan self ;;
    if (l =? 0)%float then ret tt
    else GameObject_update self dt.

Definition Particle_draw `{Pygame} (self surface : ref)
    (area : option Rect) (special_flags : Z) : M unit :=
  l <- getattr lifespan self ;;
  if (l =? 0)%float then ret tt
  else GameObject_draw self surface area special_flags.

(** ** Method calls, dispatched on the class of the receiver *)

(** [self.update(dt)] and [self.update(dt, base_fps)];
    [GameObject.update] takes no [base_fps]. *)
Definition update `{Pygame} (self : ref) (dt : float) (base_fps : option Z) : M unit :=
  o <- lookup_in objects self ;;
  match cls o, base_fps with
  | GameObject_cls, None => GameObject_update self dt
  | GameObject_cls, Some _ => raise TypeError
  | Particle_cls, None => Particle_update self dt 60
  | Particle_cls, Some fps => Particle_update self dt fps
  end.

(** [self.draw(surface, area, special_flags)] *)
Definition draw `{Pygame} (self surface : ref)
    (area : option Rect) (special_flags : Z) : M unit :=
  o <- lookup_in objects self ;;
  match cls o with
  | GameObject_cls => GameObject_draw self surface area special_flags
  | Particle_cls => Particle_draw self surface area special_flags
  end.

(** ** ParticleSystem *)

Definition new_ParticleSystem `{Pygame} : M ref :=
  self <- fresh ;;
  fun w => (set_groups (insert self ∅) w, Return self).

Definition ParticleSystem_update `{Pygame} (self : ref) (dt : float) (base_fps : Z) : M unit :=
  members <- lookup_in groups self ;;
  for_each (elements members) (fun particle => update particle dt (Some base_fps)).

Definition ParticleSystem_draw `{Pygame} (self surface : ref)
    (area : option Rect) (special_flags : Z) : M unit :=
  members <- lookup_in groups self ;;
  for_each (elements members)
    (fun particle => draw particle surface area special_flags).

(** ** The operations a program can perform on the store *)

Inductive call `{Pygame} :=
  | NewGameObject (texture : Surface) (position scale : Vector2) (rotation : number)
      (renderer updater : pyval)
  | NewParticle (texture : Surface) (position scale : Vector2) (rotation : number)
      (renderer updater : pyval) (lifespan : float)
  | NewBasicParticleUpdater (particle : pyval) (velocity accel : Vector2)
  | NewScriptedUpdater (particle : pyval) (moves : list (ref * Vector2))
      (outcome : result unit)
  | NewRenderer (r : GORenderer)
  | NewSurface (size : Z * Z)
  | NewParticleSystem
  | SetImage (self : ref) (texture : Surface)
  | SetPosition (self : ref) (p : Vector2)
  | SetScale (self : ref) (s : Vector2)
  | SetRotation (self : ref) (r : number)
  | SetRenderer (self : ref) (r : pyval)
  | SetUpdater (self : ref) (u : pyval)
  | SetRect (self : ref) (r : Rect)
  | SetLifespan (self : ref) (l : float)
  | SetParticle (u : ref) (p : pyval)
  | SetVelocity (u : ref) (v : Vector2)
  | SetAccel (u : ref) (a : Vector2)
  | CallUpdater (u : pyval) (dt : float)
  | Update (self : ref) (dt : float) (base_fps : option Z)
  | Draw (self surface : ref) (area : option Rect) (special_flags : Z)
  | Kill (self : ref)
  | Add (self group : ref)
  | SystemUpdate (system : ref) (dt : float) (base_fps : Z)
  | SystemDraw (system surface : ref) (area : option Rect) (special_flags : Z).

Definition run `{Pygame} (c : call) : M unit :=
  match c with
  | NewGameObject t p s r rd u => _ <- new_GameObject t p s r rd u ;; ret tt
  | NewParticle t p s r rd u l => _ <- new_Particle t p s r rd u l ;; ret tt
  | NewBasicParticleUpdater p v a => _ <- new_BasicParticleUpdater p v a ;; ret tt
  | NewScriptedUpdater p moves outcome => _ <- new_ScriptedUpdater p moves outcome ;; ret tt
  | NewRenderer r => _ <- new_renderer r ;; ret tt
  | NewSurface size => _ <- new_Surface size ;; ret tt
  | NewParticleSystem => _ <- new_ParticleSystem ;; ret tt
  | SetImage self t => setattr self (with_image t)
  | SetPosition self p => GameObject_set_position self p
  | SetScale self s => GameObject_set_scale self s
  | SetRotation self r => GameObject_set_rotation self r
  | SetRenderer self r => GameObject_set_renderer self r
  | SetUpdater self u => set_updater self u
  | SetRect self r => setattr self (with_rect r)
  | SetLifespan self l => setattr self (with_lifespan l)
  | SetParticle u p => Updater_set_particle u p
  | SetVelocity u v => BasicParticleUpdater_set_velocity u v
  | SetAccel u a => BasicParticleUpdater_set_accel u a
  | CallUpdater u dt => call_updater u dt
  | Update self dt fps => update self dt fps
  | Draw self surface area flags => draw self surface area flags
  | Kill self => Sprite_kill self
  | Add self group => Sprite_add self group
  | SystemUpdate g dt fps => ParticleSystem_update g dt fps
  | SystemDraw g surface area flags => ParticleSystem_draw g surface area flags
  end.

(** A program is a sequence of operations; one that raises is caught by
    the caller, and the program goes on. *)
Fixpoint run_all `{Pygame} (cs : list call) (w : World) : World :=
  match cs with
  | [] => w
  | c :: cs' => run_all cs' (fst (run c w))
  end.

(** ** A concrete raster for examples

    A surface is its size.  Scaling sets the size and refuses a negative
    one; rotating keeps the size for the angle zero and otherwise takes
    the square that holds every rotation; rectangles intersect when
    their interiors do. *)

Definition size_scale (s : Z * Z) (wh : Z * Z) : result (Z * Z) :=
  if (fst wh <? 0) || (snd wh <? 0) then Raise ValueError else Return wh.

Definition size_rotate (s : Z * Z) (angle : number) : result (Z * Z) :=
  match angle with
  | PyInt 0 => Return s
  | PyFloat f => if (f =? 0)%float then Return s
                 else Return (fst s + snd s, fst s + snd s)
  | _ => Return (fst s + snd s, fst s + snd s)
  end.

Definition size_rect_center (s : Z * Z) (c : float * float) : result Rect :=
  match py_round (fst c), py_round (snd c) with
  | Return cx, Return cy => Return (mkRect (cx - fst s / 2) (cy - snd s / 2) (fst s) (snd s))
  | Raise e, _ => Raise e
  | _, Raise e => Raise e
  end.

Definition rects_overlap (a b : Rect) : bool :=
  (left a <? left b + width b) && (left b <? left a + width a) &&
  (top a <? top b + height b) && (top b <? top a + height a).

Definition SizeRaster : Pygame :=
  {| Surface := Z * Z;
     transform_scale := size_scale;
     transform_rotate := size_rotate;
     get_width := fst;
     get_height := snd;
     get_rect_center := size_rect_center;
     colliderect := rects_overlap |}.

(** ** Predicates of the statements *)

Definition has_renderer `{Pygame} (o : GameObject) : Prop :=
  exists r, _renderer o = Some (PyRef r).

Definition has_updater `{Pygame} (o : GameObject) : Prop :=
  exists u, updater o = Some (PyRef u).

(** What holds of every instance between two operations. *)
Definition good `{Pygame} (o : GameObject) : Prop :=
  has_renderer o /\ (cls o = Particle_cls -> has_updater o).

Definition defaults_present `{Pygame} (w : World) : Prop :=
  (2 <= next_ref w)%nat /\
  renderers w !! DEFAULT_RENDERER = Some BasicRenderer /\
  exists p v a,
    updaters w !! DEFAULT_PARTICLE_MOTION = Some (BasicParticleUpdater p v a).

Definition wf `{Pygame} (w : World) : Prop :=
  defaults_present w /\
  forall r o, objects w !! r = Some o -> good o.

(** [wf], but for the instance [self] that is being initialised, of
    which [G] holds so far. *)
Definition wf_but `{Pygame} (self : ref) (G : GameObject -> Prop) (w : World) : Prop :=
  defaults_present w /\
  (exists o, objects w !! self = Some o /\ G o) /\
  forall r o, r <> self -> objects w !! r = Some o -> good o.

(** No call of [u] with the one argument [dt] is possible: there is no
    updater, or its signature does not fit. *)
Definition updater_mismatch `{Pygame} (w : World) (u : pyval) : bool :=
  match u with
  | PyNone => true
  | PyRef r =>
      match updaters w !! r with
      | Some (ForeignUpdater _) => true
      | _ => false
      end
  end.

(** Two floats that are the same value for Python: identical, or equal
    under [==] (which holds of [0.0] and [-0.0]). *)
Definition same_float (a b : float) : Prop :=
  a = b \/ (a =? b)%float = true.

Definition same_vector (v u : Vector2) : Prop :=
  same_float (x v) (x u) /\ same_float (y v) (y u).

(** [self.lifespan], read off the store. *)
Definition lifespan_of `{Pygame} (w : World) (self : ref) : option float :=
  match objects w !! self with
  | Some o => lifespan o
  | None => None
  end.

(** The instance [r] is in the store and [G] holds of it. *)
Definition obj_inv `{Pygame} (r : ref) (G : GameObject -> Prop) (w : World) : Prop :=
  exists o, objects w !! r = Some o /\ G o.

(** The calls of [update] and [draw], on an instance or on a system. *)
Definition updates_or_draws `{Pygame} (c : call) : bool :=
  match c with
  | Update _ _ _ | Draw _ _ _ _ | SystemUpdate _ _ _ | SystemDraw _ _ _ _ => true
  | _ => false
  end.

(** [self] is a member of no group. *)
Definition in_no_group `{Pygame} (w : World) (self : ref) : Prop :=
  forall g members, groups w !! g = Some members -> self ∉ members.

(** The store once a reference has been handed out. *)
Definition after_fresh `{Pygame} (w : World) : World :=
  mkWorld _ (objects w) (updaters w) (renderers w) (groups w) (surfaces w)
    (S (next_ref w)).

(** The attributes of an instance when [GameObject.__init__] reaches the
    call of [hitbox]. *)
Definition built `{Pygame} (c : class) (texture : Surface) (position scale : Vector2)
    (rotation : number) (renderer updater : pyval) : GameObject :=
  mkGameObject _ c (Some texture) (Some position) (Some scale)
    (Some (py_mod_360 rotation))
    (Some (PyRef (ref_or_default DEFAULT_RENDERER renderer)))
    (Some updater) None None.

(** What [r.hitbox(o)] returns, as a function of the renderer and of the
    attributes of the instance. *)
Definition rbind {A B} (r : result A) (k : A -> result B) : result B :=
  match r with
  | Return a => k a
  | Raise e => Raise e
  end.

Definition attr_result {A} (v : option A) : result A :=
  match v with
  | Some a => Return a
  | None => Raise AttributeError
  end.

Definition hitbox_of `{Pygame} (r : GORenderer) (o : GameObject) : result Rect :=
  match r with
  | StackRenderer _ => Raise NotImplementedError
  | BasicRenderer =>
      rbind (attr_result (image o)) (fun img =>
      rbind (attr_result (_scale o)) (fun scale =>
      rbind (py_round (x scale)) (fun w =>
      rbind (py_round (y scale)) (fun h =>
      rbind (transform_scale img (w, h)) (fun scaled =>
      rbind (attr_result (_rotation o)) (fun rotation =>
      rbind (transform_rotate scaled rotation) (fun texture =>
      rbind (attr_result (_position o)) (fun position =>
      get_rect_center texture (x position, y position)))))))))
  end.

(** [0 <= n < 360] *)
Definition in_half_open_360 (n : number) : bool :=
  match n with
  | PyInt z => (0 <=? z) && (z <? 360)
  | PyFloat f => ((0 <=? f) && (f <? 360))%float
  end.

(** [0 <= n <= 360] *)
Definition in_closed_360 (n : number) : bool :=
  match n with
  | PyInt z => (0 <=? z) && (z <=? 360)
  | PyFloat f => ((0 <=? f) && (f <=? 360))%float
  end.

(** The binary64 number [360.0]: mantissa and exponent. *)
Definition m360 : positive := 6333186975989760.

Definition SF360 : spec_float := S754_finite false m360 (-44).

(** The value of mantissa [m] at exponent [e], in units of [2 ^ -1074],
    the smallest positive binary64 number. *)
Definition val (m e : Z) : Z := m * 2 ^ (e + 1074).

(** [w'] is [w] but for its surfaces. *)
Definition same_but_surfaces `{Pygame} (w w' : World) : Prop :=
  objects w' = objects w /\ updaters w' = updaters w /\ renderers w' = renderers w /\
  groups w' = groups w /\ next_ref w' = next_ref w.

(** [w'] has the surfaces and the renderers of [w], and no new object. *)
Definition same_display `{Pygame} (w w' : World) : Prop :=
  surfaces w' = surfaces w /\ renderers w' = renderers w /\ next_ref w' = next_ref w.

(** ** Example scenes, on the concrete raster *)

Definition square : Z * Z := (10, 10).

Definition at_5_5 : Vector2 := mkVector2 5 5.

Definition ten_by_ten : Vector2 := mkVector2 10 10.

(** A surface of 100 by 100 and a [GameObject] inside it. *)
Definition scene_object : @M SizeRaster (ref * ref) :=
  s <- new_Surface (100, 100) ;;
  g <- new_GameObject (H:=SizeRaster) square at_5_5 ten_by_ten (PyInt 0) PyNone PyNone ;;
  ret (g, s).

(** The same, and the object is then given a [StackRenderer]. *)
Definition scene_stack : @M SizeRaster (ref * ref) :=
  gs <- scene_object ;;
  st <- new_renderer (StackRenderer 1) ;;
  GameObject_set_renderer (fst gs) (PyRef st) ;;
  ret gs.

(** The object is drawn with a clip area and a blend flag. *)
Definition scene_draw_flags : @M SizeRaster ref :=
  gs <- scene_object ;;
  GameObject_draw (fst gs) (snd gs) (Some (mkRect 0 0 5 5)) 1 ;;
  ret (snd gs).

(** An object built with the rotation [r], and its stored rotation. *)
Definition scene_rotation_built (r : number) : @M SizeRaster number :=
  g <- new_GameObject (H:=SizeRaster) square at_5_5 ten_by_ten r PyNone PyNone ;;
  GameObject_rotation g.

(** An object whose rotation is then set to [r], and its stored rotation. *)
Definition scene_rotation_set (r : number) : @M SizeRaster number :=
  gs <- scene_object ;;
  GameObject_set_rotation (fst gs) r ;;
  GameObject_rotation (fst gs).

(** Two particles built without an updater: the particles, the updater
    of each, and the particle the default updater is bound to. *)
Definition scene_two_particles : @M SizeRaster (ref * ref * pyval * pyval * pyval) :=
  p1 <- new_Particle (H:=SizeRaster) square at_5_5 ten_by_ten (PyInt 0) PyNone PyNone 10 ;;
  p2 <- new_Particle (H:=SizeRaster) square at_5_5 ten_by_ten (PyInt 0) PyNone PyNone 10 ;;
  u1 <- getattr updater p1 ;;
  u2 <- getattr updater p2 ;;
  b <- Updater_particle DEFAULT_PARTICLE_MOTION ;;
  ret (p1, p2, u1, u2, b).

(** A particle system, a kinematic updater with velocity [(1, 2)] and
    acceleration [(1, 0)], and a particle of lifespan [l] that has this
    updater and is a member of the system. *)
Definition scene_particle (l : float) : @M SizeRaster (ref * ref * ref) :=
  ps <- new_ParticleSystem ;;
  u <- new_BasicParticleUpdater PyNone (mkVector2 1 2) (mkVector2 1 0) ;;
  p <- new_Particle (H:=SizeRaster) square at_5_5 ten_by_ten (PyInt 0) PyNone (PyRef u) l ;;
  Sprite_add p ps ;;
  ret (p, u, ps).

(** An object whose updater moves it to [(99, 99)] and then raises a
    [TypeError]. *)
Definition scene_scripted : @M SizeRaster (ref * ref) :=
  gs <- scene_object ;;
  u <- new_ScriptedUpdater PyNone [(fst gs, mkVector2 99 99)] (Raise TypeError) ;;
  set_updater (fst gs) (PyRef u) ;;
  ret (fst gs, u).

(** The position of that object before and after one update. *)
Definition scene_scripted_update : @M SizeRaster (Vector2 * Vector2) :=
  gu <- scene_scripted ;;
  before <- GameObject_position (fst gu) ;;
  GameObject_update (fst gu) 1 ;;
  after <- GameObject_position (fst gu) ;;
  ret (before, after).

(** An object far outside a surface of 100 by 100. *)
Definition scene_off_screen : @M SizeRaster (ref * ref) :=
  s <- new_Surface (100, 100) ;;
  g <- new_GameObject (H:=SizeRaster) square (mkVector2 500 500) ten_by_ten (PyInt 0)
         PyNone PyNone ;;
  ret (g, s).

(** A plain [GameObject] that is a member of a particle system. *)
Definition scene_grouped_object : @M SizeRaster (ref * ref) :=
  gs <- scene_object ;;
  ps <- new_ParticleSystem ;;
  Sprite_add (fst gs) ps ;;
  ret (fst gs, ps).

(** Two particles built without an updater; the default updater is then
    given the velocity [(1, 0)]. *)
Definition scene_shared : @M SizeRaster (ref * ref) :=
  p1 <- new_Particle (H:=SizeRaster) square at_5_5 ten_by_ten (PyInt 0) PyNone PyNone 10 ;;
  p2 <- new_Particle (H:=SizeRaster) square at_5_5 ten_by_ten (PyInt 0) PyNone PyNone 10 ;;
  BasicParticleUpdater_set_velocity DEFAULT_PARTICLE_MOTION (mkVector2 1 0) ;;
  ret (p1, p2).

(** The first of the two is updated: the positions of both after that. *)
Definition scene_shared_update : @M SizeRaster (Vector2 * Vector2) :=
  ps <- scene_shared ;;
  update (fst ps) 1 None ;;
  a <- GameObject_position (fst ps) ;;
  b <- GameObject_position (snd ps) ;;
  ret (a, b).

(** A [StackRenderer] in the store, nothing built with it yet. *)
Definition scene_stack_renderer : @M SizeRaster ref :=
  new_renderer (StackRenderer 1).

(** The stores these scenes end in. *)
Definition world_object : @World SizeRaster :=
  Eval vm_compute in fst (scene_object import_module).

Definition world_stack : @World SizeRaster :=
  Eval vm_compute in fst (scene_stack import_module).

Definition world_scripted : @World SizeRaster :=
  Eval vm_compute in fst (scene_scripted import_module).

Definition world_off_screen : @World SizeRaster :=
  Eval vm_compute in fst (scene_off_screen import_module).

Definition world_stack_renderer : @World SizeRaster :=
  Eval vm_compute in fst (scene_stack_renderer import_module).

Definition world_alive : @World SizeRaster :=
  Eval vm_compute in fst (scene_particle 0.5 import_module).

Definition world_dead : @World SizeRaster :=
  Eval vm_compute in fst (scene_particle 0 import_module).

Definition world_immortal : @World SizeRaster :=
  Eval vm_compute in fst (scene_particle (-1) import_module).

Definition world_grouped_object : @World SizeRaster :=
  Eval vm_compute in fst (scene_grouped_object import_module).

Definition world_shared : @World SizeRaster :=
  Eval vm_compute in fst (scene_shared import_module).

(** * Properties *)

(** ** Floats *)

Lemma float_add_0_r a : same_float (a + 0)%float a.
Proof.
  unfold same_float.
  destruct (Prim2SF a) as [[|]| | |] eqn:Ha.
  - right. rewrite FloatAxioms.eqb_spec, add_spec, Ha. reflexivity.
  - left. apply Prim2SF_inj. rewrite add_spec, Ha. reflexivity.
  - left. apply Prim2SF_inj. rewrite add_spec, Ha. reflexivity.
  - left. apply Prim2SF_inj. rewrite add_spec, Ha. reflexivity.
  - left. apply Prim2SF_inj. rewrite add_spec, Ha. reflexivity.
Qed.

(** The three life states exclude one another. *)
Lemma float_neg_cases l :
  (l <? 0)%float = true -> (0 <? l)%float = false /\ (l =? 0)%float = false.
Proof.
  rewrite !ltb_spec, FloatAxioms.eqb_spec.
  change (Prim2SF 0) with (S754_zero false).
  destruct (Prim2SF l) as [s|[|]| |[|] m e]; cbn; auto; discriminate.
Qed.

Lemma float_zero_not_pos l :
  (l =? 0)%float = true -> (0 <? l)%float = false.
Proof.
  rewrite ltb_spec, FloatAxioms.eqb_spec.
  change (Prim2SF 0) with (S754_zero false).
  destruct (Prim2SF l) as [s|[|]| |[|] m e]; cbn; auto; discriminate.
Qed.

(** *** The range of [f % 360.0]

    The mantissa of a binary64 number has at most 53 binary digits. *)

Lemma digits2_pos_bounds p :
  2 ^ (Zpos (digits2_pos p) - 1) <= Zpos p < 2 ^ Zpos (digits2_pos p).
Proof.
  induction p as [p IH|p IH|]; cbn [digits2_pos].
  - rewrite Pos2Z.inj_succ. replace (Z.succ (Zpos (digits2_pos p)) - 1) with (Z.succ (Zpos (digits2_pos p) - 1)) by lia.
    rewrite !Z.pow_succ_r by lia. lia.
  - rewrite Pos2Z.inj_succ. replace (Z.succ (Zpos (digits2_pos p)) - 1) with (Z.succ (Zpos (digits2_pos p) - 1)) by lia.
    rewrite !Z.pow_succ_r by lia. lia.
  - cbn. lia.
Qed.

Lemma digits2_pos_log2 p : Zpos (digits2_pos p) = Z.log2 (Zpos p) + 1.
Proof.
  pose proof (digits2_pos_bounds p) as [Hl Hu].
  enough (Z.log2 (Zpos p) = Zpos (digits2_pos p) - 1) by lia.
  apply Z.log2_unique; [lia|].
  split; [exact Hl|].
  now replace (Z.succ (Zpos (digits2_pos p) - 1)) with (Zpos (digits2_pos p)) by lia.
Qed.

Lemma digits2_pos_lt p d : 0 <= d -> (Zpos p < 2 ^ d <-> Zpos (digits2_pos p) <= d).
Proof.
  intros Hd. rewrite digits2_pos_log2. rewrite Z.log2_lt_pow2 by lia. lia.
Qed.

Lemma digits2_pos_shift p k :
  0 <= k -> forall q, Zpos q = Zpos p * 2 ^ k -> Zpos (digits2_pos q) = Zpos (digits2_pos p) + k.
Proof.
  intros Hk q Hq. rewrite !digits2_pos_log2, Hq, Z.log2_mul_pow2 by lia. lia.
Qed.

Lemma Pos_iter_xO p k : Zpos (Pos.iter xO p k) = Zpos p * 2 ^ Zpos k.
Proof.
  induction k as [|k IH] using Pos.peano_ind.
  - cbn. lia.
  - rewrite Pos.iter_succ, Pos2Z.inj_succ, Z.pow_succ_r by lia.
    rewrite Pos2Z.inj_xO, IH. lia.
Qed.

Lemma shr_1_m mrs : 0 <= shr_m mrs -> shr_m (shr_1 mrs) = shr_m mrs / 2 /\ 0 <= shr_m (shr_1 mrs).
Proof.
  destruct mrs as [m r s]. cbn [shr_m]. intros Hm.
  destruct m as [|[p|p|]|p]; cbn [shr_1 shr_m]; try lia.
  - split; [reflexivity|lia].
  - split; [|lia]. apply (Z.div_unique (Zpos p~1) 2 (Zpos p) 1); lia.
  - split; [|lia]. apply (Z.div_unique (Zpos p~0) 2 (Zpos p) 0); lia.
  - split; [reflexivity|lia].
Qed.

Lemma iter_shr_1_m n : forall mrs,
  0 <= shr_m mrs ->
  shr_m (SpecFloat.iter_pos shr_1 n mrs) = shr_m mrs / 2 ^ Zpos n /\ 0 <= shr_m (SpecFloat.iter_pos shr_1 n mrs).
Proof.
  induction n as [n IH|n IH|]; intros mrs Hm; cbn [SpecFloat.iter_pos].
  - assert (Hn : 0 < 2 ^ Zpos n) by (apply Z.pow_pos_nonneg; lia).
    destruct (shr_1_m mrs Hm) as [E1 P1].
    destruct (IH _ P1) as [E2 P2]. destruct (IH _ P2) as [E3 P3].
    split; [|exact P3]. rewrite E3, E2, E1.
    rewrite !Z.div_div by lia. f_equal.
    replace (Zpos n~1) with (1 + Zpos n + Zpos n) by lia.
    rewrite !Z.pow_add_r by lia. change (2 ^ 1) with 2. ring.
  - assert (Hn : 0 < 2 ^ Zpos n) by (apply Z.pow_pos_nonneg; lia).
    destruct (IH _ Hm) as [E2 P2]. destruct (IH _ P2) as [E3 P3].
    split; [|exact P3]. rewrite E3, E2.
    rewrite !Z.div_div by lia. f_equal.
    replace (Zpos n~0) with (Zpos n + Zpos n) by lia.
    rewrite Z.pow_add_r by lia. ring.
  - destruct (shr_1_m mrs Hm) as [E1 P1]. split; [|exact P1]. now rewrite E1.
Qed.


Lemma fexp_eq e : fexp prec emax e = Z.max (e - 53) (-1074).
Proof. reflexivity. Qed.

Lemma round_nearest_even_bounds m l :
  m <= round_nearest_even m l <= m + 1.
Proof.
  destruct l as [|[]]; cbn [round_nearest_even]; try lia.
  destruct (Z.even m); lia.
Qed.

Lemma shr_fexp_noop m e :
  fexp prec emax (Zpos (digits2_pos m) + e) = e ->
  shr_fexp prec emax (Zpos m) e loc_Exact = (Build_shr_record (Zpos m) false false, e).
Proof.
  intros Hf. unfold shr_fexp. cbn [Zdigits2 shr_record_of_loc]. rewrite Hf, Z.sub_diag.
  reflexivity.
Qed.

Lemma binary_round_aux_canonical s m e :
  fexp prec emax (Zpos (digits2_pos m) + e) = e -> e <= 971 ->
  binary_round_aux prec emax s (Zpos m) e loc_Exact = S754_finite s m e /\
  bounded prec emax m e = true.
Proof.
  intros Hf He. unfold binary_round_aux.
  rewrite (shr_fexp_noop m e Hf). cbn [shr_m loc_of_shr_record round_nearest_even].
  rewrite (shr_fexp_noop m e Hf). cbn [shr_m].
  split.
  - replace (e <=? emax - prec) with true; [reflexivity|].
    symmetry. apply Z.leb_le. change (emax - prec) with 971. lia.
  - unfold bounded, canonical_mantissa. rewrite Hf, Z.eqb_refl. cbn [andb].
    apply Z.leb_le. change (emax - prec) with 971. lia.
Qed.


Lemma pow2_lt a b : 0 <= b -> 2 ^ a < 2 ^ b -> a < b.
Proof.
  intros Hb H. destruct (Z_lt_le_dec a b) as [|Hge]; [assumption|].
  exfalso. assert (2 ^ b <= 2 ^ a) by (apply Z.pow_le_mono_r; lia). lia.
Qed.

Lemma digits2_pos_53 p : 2 ^ 52 <= Zpos p < 2 ^ 53 -> Zpos (digits2_pos p) = 53.
Proof.
  intros [Hl Hu]. rewrite digits2_pos_log2.
  rewrite (Z.log2_unique (Zpos p) 52); [reflexivity|lia|]. split; assumption.
Qed.

Lemma bounded_canonical m e :
  bounded prec emax m e = true ->
  Z.max (Zpos (digits2_pos m) + e - 53) (-1074) = e /\ e <= 971.
Proof.
  unfold bounded, canonical_mantissa. intros Hb.
  apply andb_prop in Hb as [Hc He]. apply Z.eqb_eq in Hc. apply Z.leb_le in He.
  rewrite fexp_eq in Hc. change (emax - prec) with 971 in He. lia.
Qed.

Lemma val_le_same_exponent m m' e :
  -1074 <= e -> val (Zpos m) e <= val (Zpos m') e -> Zpos m <= Zpos m'.
Proof.
  intros He Hv. unfold val in Hv.
  apply Z.mul_le_mono_pos_r in Hv; [|apply Z.pow_pos_nonneg; lia]. exact Hv.
Qed.

Lemma val_lt_same_exponent m m' e :
  -1074 <= e -> val (Zpos m) e < val (Zpos m') e -> Zpos m < Zpos m'.
Proof.
  intros He Hv. unfold val in Hv.
  apply Z.mul_lt_mono_pos_r in Hv; [|apply Z.pow_pos_nonneg; lia]. exact Hv.
Qed.

Lemma val_shift m e k :
  -1074 <= e -> 0 <= k -> val (m * 2 ^ k) e = val m (e + k).
Proof.
  intros He Hk. unfold val. replace (e + k + 1074) with (k + (e + 1074)) by lia.
  rewrite (Z.pow_add_r 2 k (e + 1074)) by lia. ring.
Qed.

(** A number with at most 53 digits is rounded to itself. *)
Lemma binary_round_exact s N e :
  -1074 <= e ->
  Zpos (digits2_pos N) <= 53 ->
  Zpos (digits2_pos N) + e <= 1024 ->
  exists mf ef,
    binary_round prec emax s N e = S754_finite s mf ef /\
    bounded prec emax mf ef = true /\
    val (Zpos mf) ef = val (Zpos N) e /\ ef <= e.
Proof.
  intros He Hd Hde. unfold binary_round.
  assert (Hd1 : 1 <= Zpos (digits2_pos N)) by lia.
  pose proof (fexp_eq (Zpos (digits2_pos N) + e)) as Hfe.
  set (d := Zpos (digits2_pos N)) in *.
  set (fe := fexp prec emax (d + e)) in *.
  unfold shl_align. destruct (fe - e) as [|k|k] eqn:Hk.
  - assert (Hee : fe = e) by lia.
    destruct (binary_round_aux_canonical s N e) as [Hr Hb].
    { fold d. fold fe. exact Hee. }
    { lia. }
    exists N, e. rewrite Hr. repeat split; try assumption; lia.
  - exfalso. lia.
  - set (mz := Pos.iter xO N k).
    assert (Hmz : Zpos mz = Zpos N * 2 ^ Zpos k) by apply Pos_iter_xO.
    assert (Hdz : Zpos (digits2_pos mz) = d + Zpos k)
      by (apply (digits2_pos_shift N (Zpos k)); [lia|exact Hmz]).
    destruct (binary_round_aux_canonical s mz fe) as [Hr Hb].
    { rewrite Hdz. replace (d + Zpos k + fe) with (d + e) by lia. reflexivity. }
    { lia. }
    exists mz, fe. rewrite Hr. repeat split; try assumption; try lia.
    unfold val. rewrite Hmz. replace (e + 1074) with (Zpos k + (fe + 1074)) by lia.
    rewrite (Z.pow_add_r 2 (Zpos k) (fe + 1074)) by lia. ring.
Qed.

(** ** Rounding below a normal float

    [B = mB * 2 ^ eB] is a positive normal binary64 number.  Rounding to
    nearest is monotone and [B] is representable, so a positive number
    below [B] is rounded to at most [B]. *)

Section Below.
Variables (mB : positive) (eB : Z).
Hypothesis mB_digits : Zpos (digits2_pos mB) = 53.
Hypothesis eB_lo : -1074 <= eB.
Hypothesis eB_hi : eB <= 971.

Let B : spec_float := S754_finite false mB eB.

Lemma mB_bounds : 2 ^ 52 <= Zpos mB < 2 ^ 53.
Proof.
  pose proof (digits2_pos_bounds mB) as H. rewrite mB_digits in H.
  change (53 - 1) with 52 in H. exact H.
Qed.

Lemma valB_lt : val (Zpos mB) eB < 2 ^ (eB + 1127).
Proof.
  unfold val. replace (eB + 1127) with (53 + (eB + 1074)) by lia.
  rewrite (Z.pow_add_r 2 53 (eB + 1074)) by lia.
  apply Z.mul_lt_mono_pos_r; [apply Z.pow_pos_nonneg; lia|]. apply mB_bounds.
Qed.

Lemma val_small_digits N e :
  -1074 <= e -> val (Zpos N) e < val (Zpos mB) eB ->
  Zpos (digits2_pos N) + e <= eB + 53.
Proof.
  intros He Hv. pose proof valB_lt as HB.
  assert (Hv' : val (Zpos N) e < 2 ^ (eB + 1127)) by lia. clear Hv HB.
  unfold val in Hv'.
  pose proof (digits2_pos_bounds N) as [Hl _].
  set (d := Zpos (digits2_pos N)) in *.
  assert (Hd : 1 <= d) by (unfold d; lia).
  assert (H1 : 2 ^ (d - 1) * 2 ^ (e + 1074) < 2 ^ (eB + 1127)).
  { eapply Z.le_lt_trans; [|exact Hv']. apply Z.mul_le_mono_nonneg_r; [|exact Hl].
    apply Z.pow_nonneg. lia. }
  rewrite <- Z.pow_add_r in H1 by lia.
  apply pow2_lt in H1; lia.
Qed.

Lemma valB_at fe :
  -1074 <= fe -> fe <= eB ->
  val (Zpos mB) eB = Zpos mB * 2 ^ (eB - fe) * 2 ^ (fe + 1074).
Proof.
  intros H1 H2. unfold val. rewrite <- Z.mul_assoc, <- Z.pow_add_r by lia.
  f_equal. f_equal. lia.
Qed.

Lemma binary_round_round s N e :
  -1074 <= e ->
  53 < Zpos (digits2_pos N) ->
  val (Zpos N) e < val (Zpos mB) eB ->
  exists mf ef,
    binary_round prec emax s N e = S754_finite s mf ef /\
    bounded prec emax mf ef = true /\
    val (Zpos mf) ef <= val (Zpos mB) eB.
Proof.
  intros He Hd Hv.
  pose proof (val_small_digits N e He Hv) as Hde.
  pose proof (digits2_pos_bounds N) as [HNl HNu].
  pose proof (fexp_eq (Zpos (digits2_pos N) + e)) as Hfe.
  pose proof mB_bounds as [HmBl HmBu].
  unfold binary_round.
  set (d := Zpos (digits2_pos N)) in *.
  set (fe := fexp prec emax (d + e)) in *.
  assert (Hfe' : fe = d + e - 53) by lia.
  unfold shl_align. destruct (fe - e) as [|n|n] eqn:Hk; try lia.
  unfold binary_round_aux, shr_fexp at 1. cbn [Zdigits2 shr_record_of_loc].
  fold d. fold fe. rewrite Hk. cbn [shr].
  destruct (iter_shr_1_m n (Build_shr_record (Zpos N) false false)) as [Hq Hq0];
    [cbn; lia|]. cbn [shr_m] in Hq.
  set (mrs := SpecFloat.iter_pos shr_1 n (Build_shr_record (Zpos N) false false)) in *.
  assert (Hn : Zpos n = d - 53) by lia.
  assert (H2n : 0 < 2 ^ Zpos n) by (apply Z.pow_pos_nonneg; lia).
  assert (Hql : 2 ^ 52 <= shr_m mrs).
  { rewrite Hq. apply Z.div_le_lower_bound; [exact H2n|].
    rewrite <- Z.pow_add_r by lia. replace (Zpos n + 52) with (d - 1) by lia. exact HNl. }
  assert (Hqu : shr_m mrs < 2 ^ 53).
  { rewrite Hq. apply Z.div_lt_upper_bound; [exact H2n|].
    rewrite <- Z.pow_add_r by lia. replace (Zpos n + 53) with d by lia. exact HNu. }
  set (B' := Zpos mB * 2 ^ (eB - fe)).
  assert (HB : val (Zpos mB) eB = B' * 2 ^ (fe + 1074)) by (apply valB_at; lia).
  assert (HqB : shr_m mrs + 1 <= B').
  { enough (shr_m mrs < B') by lia. rewrite Hq.
    apply Z.div_lt_upper_bound; [exact H2n|].
    apply (Z.mul_lt_mono_pos_r (2 ^ (e + 1074))); [apply Z.pow_pos_nonneg; lia|].
    eapply Z.lt_le_trans; [exact Hv|]. rewrite HB.
    replace (fe + 1074) with (Zpos n + (e + 1074)) by lia.
    rewrite (Z.pow_add_r 2 (Zpos n) (e + 1074)) by lia.
    apply Z.eq_le_incl. ring. }
  pose proof (round_nearest_even_bounds (shr_m mrs) (loc_of_shr_record mrs)) as [Hrl Hru].
  set (m1 := round_nearest_even (shr_m mrs) (loc_of_shr_record mrs)) in *.
  replace (e + Zpos n) with fe by lia.
  destruct m1 as [|p1|p1] eqn:Hm1; try lia.
  assert (Hval : forall mf ef, val (Zpos mf) ef = Zpos p1 * 2 ^ (fe + 1074) ->
                 val (Zpos mf) ef <= val (Zpos mB) eB).
  { intros mf ef ->. rewrite HB. apply Z.mul_le_mono_nonneg_r; [apply Z.pow_nonneg|]; lia. }
  destruct (Z_lt_le_dec (Zpos p1) (2 ^ 53)) as [Hlt|Hge].
  - assert (Hd1 : Zpos (digits2_pos p1) = 53) by (apply digits2_pos_53; lia).
    assert (Hf1 : fexp prec emax (Zpos (digits2_pos p1) + fe) = fe)
      by (rewrite Hd1, fexp_eq; lia).
    rewrite (shr_fexp_noop p1 fe Hf1). cbn [shr_m].
    exists p1, fe. split; [|split].
    + replace (fe <=? emax - prec) with true; [reflexivity|].
      symmetry. apply Z.leb_le. change (emax - prec) with 971. lia.
    + unfold bounded, canonical_mantissa. rewrite Hf1, Z.eqb_refl. cbn [andb].
      apply Z.leb_le. change (emax - prec) with 971. lia.
    + apply Hval. reflexivity.
  - assert (Hp1 : p1 = 9007199254740992%positive).
    { apply Pos2Z.inj. change (Zpos 9007199254740992) with (2 ^ 53). lia. }
    (* the mantissa overflowed to 2^53, which is below B only one binade down *)
    assert (Hfelt : fe < eB).
    { destruct (Z_lt_le_dec fe eB) as [|Hfe_ge]; [assumption|exfalso].
      assert (Heq : eB - fe = 0) by lia. unfold B' in HqB. rewrite Heq in HqB.
      rewrite Z.pow_0_r, Z.mul_1_r in HqB. lia. }
    subst p1. unfold shr_fexp. cbn [Zdigits2 shr_record_of_loc].
    change (Zpos (digits2_pos 9007199254740992)) with 54.
    replace (fexp prec emax (54 + fe) - fe) with 1 by (rewrite fexp_eq; lia).
    cbn [shr SpecFloat.iter_pos shr_1 shr_m].
    exists 4503599627370496%positive, (fe + 1). split; [|split].
    + replace (fe + 1 <=? emax - prec) with true; [reflexivity|].
      symmetry. apply Z.leb_le. change (emax - prec) with 971. lia.
    + unfold bounded, canonical_mantissa.
      change (Zpos (digits2_pos 4503599627370496)) with 53.
      replace (fexp prec emax (53 + (fe + 1))) with (fe + 1) by (rewrite fexp_eq; lia).
      rewrite Z.eqb_refl. cbn [andb].
      apply Z.leb_le. change (emax - prec) with 971. lia.
    + apply Hval. unfold val. replace (fe + 1 + 1074) with (1 + (fe + 1074)) by lia.
      rewrite (Z.pow_add_r 2 1 (fe + 1074)) by lia. change (2 ^ 1) with 2. lia.
Qed.

Lemma binary_round_le s N e :
  -1074 <= e ->
  val (Zpos N) e < val (Zpos mB) eB ->
  exists mf ef,
    binary_round prec emax s N e = S754_finite s mf ef /\
    bounded prec emax mf ef = true /\
    val (Zpos mf) ef <= val (Zpos mB) eB.
Proof.
  intros He Hv. destruct (Z_le_gt_dec (Zpos (digits2_pos N)) 53) as [Hd|Hd].
  - pose proof (val_small_digits N e He Hv) as Hde.
    destruct (binary_round_exact s N e He Hd ltac:(lia)) as (mf & ef & Hr & Hb & Hval & _).
    exists mf, ef. repeat split; try assumption. lia.
  - apply binary_round_round; [exact He|lia|exact Hv].
Qed.

(** A canonical float at most [B] has an exponent at most that of [B]. *)
Lemma canonical_exponent_le mf ef :
  bounded prec emax mf ef = true ->
  val (Zpos mf) ef <= val (Zpos mB) eB ->
  ef <= eB.
Proof.
  intros Hb Hv. destruct (bounded_canonical mf ef Hb) as [Hc He].
  destruct (Z_le_gt_dec ef eB) as [Hle|Hgt]; [exact Hle|exfalso].
  pose proof (digits2_pos_bounds mf) as [Hl _].
  assert (Hd : Zpos (digits2_pos mf) = 53) by lia. rewrite Hd in Hl.
  change (53 - 1) with 52 in Hl.
  pose proof valB_lt as HB.
  assert (Hbig : 2 ^ (eB + 1127) <= val (Zpos mf) ef).
  { unfold val. replace (eB + 1127) with (52 + (eB + 1075)) by lia.
    rewrite (Z.pow_add_r 2 52 (eB + 1075)) by lia.
    apply Z.mul_le_mono_nonneg; [apply Z.pow_nonneg; lia|exact Hl|apply Z.pow_nonneg; lia|].
    apply Z.pow_le_mono_r; lia. }
  lia.
Qed.

Lemma SFltb_below mf ef :
  bounded prec emax mf ef = true ->
  val (Zpos mf) ef < val (Zpos mB) eB ->
  SFltb (S754_finite false mf ef) B = true.
Proof.
  intros Hb Hv. pose proof (canonical_exponent_le mf ef Hb ltac:(lia)) as Hle.
  destruct (bounded_canonical mf ef Hb) as [Hc He].
  unfold SFltb, B. cbn [SFcompare].
  destruct (Z.compare_spec ef eB) as [Heq|Hlt|Hgt]; [|reflexivity|lia].
  rewrite Heq in Hv. apply val_lt_same_exponent in Hv; [|lia].
  change (Pos.compare_cont Eq mf mB) with (Pos.compare mf mB).
  assert (Hp : (mf < mB)%positive) by lia.
  apply Pos.compare_lt_iff in Hp. rewrite Hp. reflexivity.
Qed.

Lemma SFleb_below mf ef :
  bounded prec emax mf ef = true ->
  val (Zpos mf) ef <= val (Zpos mB) eB ->
  SFleb (S754_finite false mf ef) B = true.
Proof.
  intros Hb Hv. pose proof (canonical_exponent_le mf ef Hb Hv) as Hle.
  destruct (bounded_canonical mf ef Hb) as [Hc He].
  unfold SFleb, B. cbn [SFcompare].
  destruct (Z.compare_spec ef eB) as [Heq|Hlt|Hgt]; [|reflexivity|lia].
  rewrite Heq in Hv. apply val_le_same_exponent in Hv; [|lia].
  change (Pos.compare_cont Eq mf mB) with (Pos.compare mf mB).
  assert (Hp : (mf <= mB)%positive) by lia.
  apply Pos.compare_le_iff in Hp.
  destruct (Pos.compare mf mB); [reflexivity|reflexivity|contradiction Hp; reflexivity].
Qed.

(** [fmod(x, B)] of a finite nonzero [x]: a zero, or a float of the sign
    of [x] whose magnitude is below [B]. *)
Lemma SFfmod_finite sx mx ex :
  bounded prec emax mx ex = true ->
  SFfmod (S754_finite sx mx ex) B = S754_zero sx \/
  exists mf ef,
    SFfmod (S754_finite sx mx ex) B = S754_finite sx mf ef /\
    bounded prec emax mf ef = true /\
    val (Zpos mf) ef < val (Zpos mB) eB.
Proof.
  intros Hvalid. destruct (bounded_canonical mx ex Hvalid) as [Hc He].
  pose proof (digits2_pos_bounds mx) as [_ Hmu].
  pose proof mB_bounds as [_ HmBu].
  unfold B. cbn [SFfmod].
  set (e' := Z.min ex eB).
  set (X := Zpos mx * 2 ^ (ex - e')). set (Y := Zpos mB * 2 ^ (eB - e')).
  assert (HX : 0 < X) by (apply Z.mul_pos_pos; [lia|apply Z.pow_pos_nonneg; lia]).
  assert (HY : 0 < Y) by (apply Z.mul_pos_pos; [lia|apply Z.pow_pos_nonneg; lia]).
  pose proof (Z.mod_pos_bound X Y HY) as [Hr0 HrY].
  assert (HrX : X mod Y <= X) by (apply Z.mod_le; lia).
  destruct (X mod Y) as [|r|r] eqn:Hr; [left; reflexivity| |left; reflexivity].
  right.
  assert (Hr53 : Zpos r < 2 ^ 53).
  { destruct (Z_le_gt_dec ex eB).
    - assert (e' = ex) by lia. unfold X in HrX. replace (ex - e') with 0 in HrX by lia.
      rewrite Z.pow_0_r, Z.mul_1_r in HrX.
      assert (Zpos (digits2_pos mx) <= 53) by lia.
      assert (2 ^ Zpos (digits2_pos mx) <= 2 ^ 53) by (apply Z.pow_le_mono_r; lia). lia.
    - assert (e' = eB) by lia. unfold Y in HrY. replace (eB - e') with 0 in HrY by lia.
      rewrite Z.pow_0_r, Z.mul_1_r in HrY. lia. }
  assert (Hvr : val (Zpos r) e' < val (Zpos mB) eB).
  { rewrite (valB_at e') by lia. unfold val.
    apply Z.mul_lt_mono_pos_r; [apply Z.pow_pos_nonneg; lia|]. exact HrY. }
  assert (Hd53 : Zpos (digits2_pos r) <= 53) by (apply digits2_pos_lt; lia).
  destruct (binary_round_exact sx r e' ltac:(lia) Hd53 ltac:(lia))
    as (mf & ef & Hbr & Hb & Hval & Hle).
  exists mf, ef.
  assert (Hbn : binary_normalize prec emax (cond_Zopp sx (Zpos r)) e' false
                = S754_finite sx mf ef).
  { destruct sx; cbn [cond_Zopp Z.opp binary_normalize]; exact Hbr. }
  rewrite Hbn. repeat split; try assumption. lia.
Qed.

(** Adding [B] to a negative float of magnitude below [B] gives a
    positive float that is at most [B]. *)
Lemma SFadd_below mf ef :
  bounded prec emax mf ef = true ->
  val (Zpos mf) ef < val (Zpos mB) eB ->
  exists mf' ef',
    SFadd prec emax (S754_finite true mf ef) B = S754_finite false mf' ef' /\
    bounded prec emax mf' ef' = true /\
    val (Zpos mf') ef' <= val (Zpos mB) eB.
Proof.
  intros Hb Hv. pose proof (canonical_exponent_le mf ef Hb ltac:(lia)) as Hle.
  destruct (bounded_canonical mf ef Hb) as [Hc He].
  assert (Hlo : -1074 <= ef) by lia.
  unfold B. cbn [SFadd]. rewrite (Z.min_l ef eB) by exact Hle.
  assert (H1 : fst (shl_align mf ef ef) = mf)
    by (unfold shl_align; rewrite Z.sub_diag; reflexivity).
  assert (H2 : Zpos (fst (shl_align mB eB ef)) = Zpos mB * 2 ^ (eB - ef)).
  { unfold shl_align. destruct (ef - eB) as [|k|k] eqn:Hk; cbn [fst].
    - replace (eB - ef) with 0 by lia. rewrite Z.pow_0_r. lia.
    - exfalso. lia.
    - rewrite Pos_iter_xO. f_equal. f_equal. lia. }
  rewrite H1. set (Y := fst (shl_align mB eB ef)) in *.
  pose proof (valB_at ef Hlo Hle) as HB. rewrite <- H2 in HB.
  assert (H2e : 0 < 2 ^ (ef + 1074)) by (apply Z.pow_pos_nonneg; lia).
  assert (Hlt : Zpos mf < Zpos Y).
  { apply (Z.mul_lt_mono_pos_r (2 ^ (ef + 1074))); [exact H2e|].
    rewrite <- HB. exact Hv. }
  cbn [cond_Zopp].
  destruct (- Zpos mf + Zpos Y) as [|N|N] eqn:HN; [exfalso; lia| |exfalso; lia].
  cbn [binary_normalize].
  apply binary_round_le; [exact Hlo|].
  rewrite HB. unfold val. rewrite <- HN.
  apply Z.mul_lt_mono_pos_r; [exact H2e|]. lia.
Qed.

End Below.

Lemma Prim2SF_360 : Prim2SF 360 = SF360.
Proof. reflexivity. Qed.

Lemma Prim2SF_0 : Prim2SF 0 = S754_zero false.
Proof. reflexivity. Qed.

Lemma SFltb_SFleb x y : SFltb x y = true -> SFleb x y = true.
Proof. unfold SFltb, SFleb. destruct (SFcompare x y) as [[]|]; congruence. Qed.

Lemma SFeqb_finite_refl s m e : SFeqb (S754_finite s m e) (S754_finite s m e) = true.
Proof.
  unfold SFeqb. cbn [SFcompare].
  rewrite Z.compare_refl. change (Pos.compare_cont Eq m m) with (Pos.compare m m).
  rewrite Pos.compare_refl. destruct s; reflexivity.
Qed.

Lemma is_finite_spec f :
  is_finite f = match Prim2SF f with
                | S754_zero _ | S754_finite _ _ _ => true
                | _ => false
                end.
Proof.
  unfold is_finite, is_nan, is_infinity.
  rewrite !FloatAxioms.eqb_spec, abs_spec.
  change (Prim2SF infinity) with (S754_infinity false).
  destruct (Prim2SF f) as [s|s| |s m e]; cbn [SFabs].
  - reflexivity.
  - destruct s; reflexivity.
  - reflexivity.
  - rewrite SFeqb_finite_refl. reflexivity.
Qed.

(** What [f % 360.0] is, by the class of [f]. *)
Lemma float_rem_360_cases f :
  match Prim2SF f with
  | S754_zero _ => float_rem f 360 = 0%float
  | S754_nan | S754_infinity _ => float_rem f 360 = nan
  | S754_finite sx _ _ =>
      Prim2SF (float_rem f 360) = S754_zero false \/
      exists mf ef,
        Prim2SF (float_rem f 360) = S754_finite false mf ef /\
        SFleb (S754_finite false mf ef) SF360 = true /\
        (sx = false -> SFltb (S754_finite false mf ef) SF360 = true)
  end.
Proof.
  pose proof (Prim2SF_valid f) as Hvalid.
  unfold float_rem, fmod. rewrite Prim2SF_360.
  destruct (Prim2SF f) as [s|s| |sx mx ex]; cbn [SFfmod SF360].
  - destruct s; reflexivity.
  - reflexivity.
  - reflexivity.
  - cbn [valid_binary] in Hvalid.
    destruct (SFfmod_finite m360 (-44) eq_refl ltac:(lia) ltac:(lia) sx mx ex Hvalid)
      as [Hz|(mf & ef & Hm & Hb & Hv)].
    + left. cbn [SFfmod] in Hz. rewrite Hz. destruct sx; reflexivity.
    + right. cbn [SFfmod] in Hm. rewrite Hm.
      set (md := SF2Prim (S754_finite sx mf ef)).
      assert (Hmd : Prim2SF md = S754_finite sx mf ef)
        by (apply Prim2SF_SF2Prim; exact Hb).
      assert (Heq : (md =? 0)%float = false).
      { rewrite FloatAxioms.eqb_spec, Hmd, Prim2SF_0. destruct sx; reflexivity. }
      assert (Hlt : (md <? 0)%float = sx).
      { rewrite ltb_spec, Hmd, Prim2SF_0. destruct sx; reflexivity. }
      rewrite Heq, Hlt. change (360 <? 0)%float with false.
      pose proof (SFltb_below m360 (-44) eq_refl ltac:(lia) mf ef Hb Hv) as Hltb.
      destruct sx; cbn [negb Bool.eqb].
      * destruct (SFadd_below m360 (-44) eq_refl ltac:(lia) ltac:(lia) mf ef Hb Hv)
          as (mf' & ef' & Hadd & Hb' & Hv').
        exists mf', ef'. split; [|split].
        -- rewrite add_spec, Hmd, Prim2SF_360. exact Hadd.
        -- exact (SFleb_below m360 (-44) eq_refl ltac:(lia) mf' ef' Hb' Hv').
        -- discriminate.
      * exists mf, ef. split; [exact Hmd|split].
        -- apply SFltb_SFleb. exact Hltb.
        -- intros _. exact Hltb.
Qed.

(** [f % 360.0] of a finite float lies in the closed interval from 0 to
    360, and below 360 when [f] is not negative. *)
Lemma float_rem_360_finite f :
  is_finite f = true ->
  ((0 <=? float_rem f 360) && (float_rem f 360 <=? 360))%float = true /\
  ((0 <=? f)%float = true ->
   ((0 <=? float_rem f 360) && (float_rem f 360 <? 360))%float = true).
Proof.
  rewrite is_finite_spec. pose proof (float_rem_360_cases f) as H.
  rewrite (leb_spec 0 f), Prim2SF_0.
  destruct (Prim2SF f) as [s|s| |sx mx ex]; try discriminate; intros _.
  - rewrite H. split; reflexivity.
  - rewrite (leb_spec 0 (float_rem f 360)), (leb_spec _ 360), (ltb_spec _ 360),
      Prim2SF_0, Prim2SF_360.
    destruct H as [Hz|(mf & ef & Hr & Hle & Hlt)].
    + rewrite Hz. split; reflexivity.
    + rewrite Hr, Hle. split; [reflexivity|].
      destruct sx; [discriminate|]. intros _. rewrite (Hlt eq_refl). reflexivity.
Qed.

(** [f % 360.0] of an infinity or of a NaN is a NaN. *)
Lemma float_rem_360_not_finite f :
  is_finite f = false -> float_rem f 360 = nan.
Proof.
  rewrite is_finite_spec. pose proof (float_rem_360_cases f) as H.
  destruct (Prim2SF f); try discriminate; intros _; exact H.
Qed.

(** ** Running the monad *)

Section Execution.
Context `{Pygame}.

Lemma bind_Return {A B} (c : M A) (k : A -> M B) w w' a :
  c w = (w', Return a) -> bind c k w = k a w'.
Proof. intros Hc. unfold bind. now rewrite Hc. Qed.

Lemma bind_Raise {A B} (c : M A) (k : A -> M B) w w' e :
  c w = (w', Raise e) -> bind c k w = (w', Raise e).
Proof. intros Hc. unfold bind. now rewrite Hc. Qed.

Lemma bind_bind {A B C} (c : M A) (k1 : A -> M B) (k2 : B -> M C) w :
  bind (bind c k1) k2 w = bind c (fun a => bind (k1 a) k2) w.
Proof. unfold bind. now destruct (c w) as [w' [a|e]]. Qed.

Lemma lookup_in_Some {A} (store : World -> gmap ref A) r w a :
  store w !! r = Some a -> lookup_in store r w = (w, Return a).
Proof. intros Hl. unfold lookup_in. now rewrite Hl. Qed.

Lemma lookup_in_None {A} (store : World -> gmap ref A) r w :
  store w !! r = None -> lookup_in store r w = (w, Raise InvalidReference).
Proof. intros Hl. unfold lookup_in. now rewrite Hl. Qed.

Lemma getattr_Some {A} (attr : GameObject -> option A) self w o a :
  objects w !! self = Some o -> attr o = Some a ->
  getattr attr self w = (w, Return a).
Proof.
  intros Ho Ha. unfold getattr.
  rewrite (bind_Return _ _ _ _ _ (lookup_in_Some objects _ _ _ Ho)).
  now rewrite Ha.
Qed.

Lemma setattr_Some self upd w o :
  objects w !! self = Some o ->
  setattr self upd w = (set_objects (insert self (upd o)) w, Return tt).
Proof.
  intros Ho. unfold setattr.
  now rewrite (bind_Return _ _ _ _ _ (lookup_in_Some objects _ _ _ Ho)).
Qed.

Lemma set_objects_insert_insert self o o' w :
  set_objects (insert self o') (set_objects (insert self o) w)
  = set_objects (insert self o') w.
Proof. unfold set_objects. cbn. f_equal. apply insert_insert_eq. Qed.

Lemma set_updaters_insert_insert r u u' w :
  set_updaters (insert r u') (set_updaters (insert r u) w)
  = set_updaters (insert r u') w.
Proof. unfold set_updaters. cbn. f_equal. apply insert_insert_eq. Qed.

Lemma set_updaters_set_objects f g w :
  set_updaters f (set_objects g w) = set_objects g (set_updaters f w).
Proof. reflexivity. Qed.

Lemma setattr_insert self upd o w :
  setattr self upd (set_objects (insert self o) w)
  = (set_objects (insert self (upd o)) w, Return tt).
Proof.
  erewrite setattr_Some by (cbn; apply lookup_insert_eq).
  now rewrite set_objects_insert_insert.
Qed.

End Execution.

(** ** A logic of pre- and postconditions

    [hoare P c Q E]: from a store in [P], [c] ends in [Q] when it
    returns and in [E] when it raises. *)

Lemma exn_eqb_eq a b : exn_eqb a b = true -> a = b.
Proof. destruct a, b; cbn; congruence. Qed.

Lemma exn_eqb_refl a : exn_eqb a a = true.
Proof. now destruct a. Qed.

Section Hoare.
Context `{Pygame}.

Definition hoare {A} (P : World -> Prop) (c : M A)
    (Q : A -> World -> Prop) (E : exn -> World -> Prop) : Prop :=
  forall w, P w ->
    match c w with
    | (w', Return a) => Q a w'
    | (w', Raise e) => E e w'
    end.

Lemma hoare_conseq {A} (P P' : World -> Prop) (c : M A) Q Q' E E' :
  hoare P' c Q' E' ->
  (forall w, P w -> P' w) ->
  (forall a w, Q' a w -> Q a w) ->
  (forall e w, E' e w -> E e w) ->
  hoare P c Q E.
Proof.
  intros Hc HP HQ HE w Hw. specialize (Hc w (HP w Hw)).
  destruct (c w) as [w' [a|e]]; auto.
Qed.

Lemma hoare_ret {A} (P : World -> Prop) (a : A) E :
  hoare P (ret a) (fun b w => b = a /\ P w) E.
Proof. intros w Hw. cbn. auto. Qed.

Lemma hoare_raise {A} (P : World -> Prop) (e : exn) (Q : A -> World -> Prop) :
  hoare P (raise e) Q (fun e' w => e' = e /\ P w).
Proof. intros w Hw. cbn. auto. Qed.

Lemma hoare_lift {A} (P : World -> Prop) (r : result A) :
  hoare P (lift r) (fun a w => r = Return a /\ P w) (fun e w => r = Raise e /\ P w).
Proof. intros w Hw. unfold lift. destruct r; auto. Qed.

Lemma hoare_bind {A B} (P : World -> Prop) (c : M A) (k : A -> M B) Q R E :
  hoare P c Q E ->
  (forall a, hoare (Q a) (k a) R E) ->
  hoare P (bind c k) R E.
Proof.
  intros Hc Hk w Hw. unfold bind. specialize (Hc w Hw).
  destruct (c w) as [w' [a|e]]; [apply (Hk a w' Hc) | exact Hc].
Qed.

Lemma hoare_try {A} (P : World -> Prop) (c h : M A) e Q E E' :
  hoare P c Q E' ->
  hoare (E' e) h Q E ->
  (forall e' w, E' e' w -> e' <> e -> E e' w) ->
  hoare P (try_except c e h) Q E.
Proof.
  intros Hc Hh HE w Hw. unfold try_except. specialize (Hc w Hw).
  destruct (c w) as [w' [a|e']]; [exact Hc|].
  destruct (exn_eqb e' e) eqn:He.
  - apply exn_eqb_eq in He. subst e'. apply (Hh w' Hc).
  - apply HE; [exact Hc|]. intros ->. now rewrite exn_eqb_refl in He.
Qed.

Lemma hoare_for_each {A} (P : World -> Prop) (xs : list A) (body : A -> M unit) E :
  (forall a, hoare P (body a) (fun _ => P) E) ->
  hoare P (for_each xs body) (fun _ => P) E.
Proof.
  intros Hb. induction xs as [|a xs IH]; cbn [for_each].
  - intros w Hw. cbn. exact Hw.
  - eapply hoare_bind; [apply Hb | intros ?; exact IH].
Qed.

Lemma hoare_lookup_in {A} (store : World -> gmap ref A) r (P : World -> Prop) :
  hoare P (lookup_in store r)
    (fun a w => store w !! r = Some a /\ P w)
    (fun e w => e = InvalidReference /\ store w !! r = None /\ P w).
Proof.
  intros w Hw. unfold lookup_in. destruct (store w !! r) eqn:Hl; auto.
Qed.

Lemma hoare_getattr {A} (attr : GameObject -> option A) self (P : World -> Prop) :
  hoare P (getattr attr self)
    (fun a w => (exists o, objects w !! self = Some o /\ attr o = Some a) /\ P w)
    (fun e w => (e = InvalidReference \/ e = AttributeError) /\ P w).
Proof.
  intros w Hw. unfold getattr, bind, lookup_in.
  destruct (objects w !! self) as [o|] eqn:Ho; [|auto].
  destruct (attr o) eqn:Ha; cbn; eauto.
Qed.

(** A computation that leaves every store in [I] in [I], however it ends. *)
Definition preserves {A} (I : World -> Prop) (c : M A) : Prop :=
  hoare I c (fun _ => I) (fun _ => I).

Lemma preserves_ret {A} I (a : A) : preserves I (ret a).
Proof. intros w Hw. exact Hw. Qed.

Lemma preserves_raise {A} I e : preserves (A:=A) I (raise e).
Proof. intros w Hw. exact Hw. Qed.

Lemma preserves_lift {A} I (r : result A) : preserves I (lift r).
Proof. intros w Hw. unfold lift. destruct r; exact Hw. Qed.

Lemma preserves_bind {A B} I (c : M A) (k : A -> M B) :
  preserves I c -> (forall a, preserves I (k a)) -> preserves I (bind c k).
Proof. intros Hc Hk. eapply hoare_bind; [exact Hc | exact Hk]. Qed.

Lemma preserves_try {A} I (c h : M A) e :
  preserves I c -> preserves I h -> preserves I (try_except c e h).
Proof.
  intros Hc Hh. eapply hoare_try; [exact Hc | exact Hh | auto].
Qed.

Lemma preserves_for_each {A} I (xs : list A) (body : A -> M unit) :
  (forall a, preserves I (body a)) -> preserves I (for_each xs body).
Proof. intros Hb. apply hoare_for_each. exact Hb. Qed.

Lemma preserves_lookup_in {A} I (store : World -> gmap ref A) r :
  preserves I (lookup_in store r).
Proof.
  eapply hoare_conseq; [apply (hoare_lookup_in store r I) | | |]; cbn; tauto.
Qed.

Lemma preserves_getattr {A} I (attr : GameObject -> option A) self :
  preserves I (getattr attr self).
Proof.
  eapply hoare_conseq; [apply (hoare_getattr attr self I) | | |]; cbn; tauto.
Qed.
End Hoare.

Create HintDb pres discriminated.
#[export] Hint Resolve preserves_ret preserves_raise preserves_lift
  preserves_lookup_in preserves_getattr : pres.

(** Splits a [preserves] goal along the structure of the computation. *)
Ltac pres_step :=
  match goal with
  | |- preserves _ (bind _ _) => apply preserves_bind; [| intros ?]
  | |- preserves _ (try_except _ _ _) => apply preserves_try
  | |- preserves _ (for_each _ _) => apply preserves_for_each; intros ?
  | |- preserves _ (match ?v with _ => _ end) => destruct v
  | |- preserves _ (let _ := _ in _) => cbv zeta
  | |- preserves _ _ => solve [eauto with pres]
  end.

Ltac pres := repeat pres_step.

(** Runs the first computation of a sequence whose outcome is known from
    the hypotheses. *)
Ltac store_simpl :=
  cbn [objects updaters renderers groups surfaces next_ref set_objects
       set_updaters set_renderers set_groups set_surfaces].

Ltac exec_step :=
  erewrite bind_Return;
  [| first [ eapply getattr_Some; [eassumption | eassumption]
           | apply setattr_insert
           | eapply lookup_in_Some; eassumption
           | eapply setattr_Some; eassumption
           | eassumption
           | eapply getattr_Some; [store_simpl; apply lookup_insert_eq | reflexivity]
           | eapply setattr_Some; store_simpl; apply lookup_insert_eq
           | eapply lookup_in_Some; store_simpl; apply lookup_insert_eq
           | reflexivity ] ].

Ltac exec := repeat first [exec_step | rewrite bind_bind].

(** Reads a triple whose three conditions are one invariant as [preserves]. *)
Ltac as_preserves :=
  cbv beta;
  match goal with
  | |- hoare ?I ?c _ _ => change (preserves I c)
  end.

(** ** Every operation keeps the store well formed *)

Section WellFormed.
Context `{Pygame}.

Lemma wf_import_module : wf import_module.
Proof.
  split; [|intros r o Hr; cbn in Hr; now rewrite lookup_empty in Hr].
  split; [cbn; lia|]. split; [reflexivity|]. do 3 eexists. reflexivity.
Qed.

Lemma wf_set_object self o w :
  wf w -> good o -> wf (set_objects (insert self o) w).
Proof.
  intros [Hd Hg] Ho. split; [exact Hd|].
  intros r o'. cbn. rewrite lookup_insert. case_decide.
  - intros [= <-]. exact Ho.
  - apply Hg.
Qed.

Lemma wf_but_set_object self (G G' : GameObject -> Prop) o w :
  wf_but self G w -> G' o -> wf_but self G' (set_objects (insert self o) w).
Proof.
  intros (Hd & _ & Hg) Ho. split; [exact Hd|]. split.
  - exists o. cbn. now rewrite lookup_insert_eq.
  - intros r o' Hne. cbn. rewrite lookup_insert_ne by congruence. now apply Hg.
Qed.

Lemma wf_but_wf self w : wf_but self good w -> wf w.
Proof.
  intros (Hd & (o & Ho & Hgo) & Hg). split; [exact Hd|].
  intros r o' Hr. destruct (decide (r = self)) as [->|Hne].
  - rewrite Ho in Hr. now injection Hr as <-.
  - now apply (Hg r).
Qed.

Lemma preserves_setattr self upd :
  (forall o, good o -> good (upd o)) -> preserves wf (setattr self upd).
Proof.
  intros Hupd w Hw. unfold setattr, bind, lookup_in.
  destruct (objects w !! self) as [o|] eqn:Ho; [|exact Hw].
  apply wf_set_object; [exact Hw|]. apply Hupd. now apply (proj2 Hw self).
Qed.

Lemma hoare_setattr_but self upd (G G' : GameObject -> Prop) :
  (forall o, G o -> G' (upd o)) ->
  hoare (wf_but self G) (setattr self upd) (fun _ => wf_but self G') (fun _ _ => False).
Proof.
  intros Hupd w Hw. unfold setattr, bind, lookup_in.
  destruct Hw as (Hd & (o & Ho & HG) & Hg). rewrite Ho.
  eapply wf_but_set_object; [|now apply Hupd].
  split; [exact Hd|]. split; [eauto|exact Hg].
Qed.

Lemma wf_frame w w' :
  wf w -> objects w' = objects w -> defaults_present w' -> wf w'.
Proof. intros [_ Hg] Ho Hd. split; [exact Hd|]. rewrite Ho. exact Hg. Qed.

Lemma preserves_fresh : preserves wf fresh.
Proof.
  intros w Hw. cbn. apply (wf_frame w); [exact Hw|reflexivity|].
  destruct Hw as [(Hn & Hr & Hu) _]. repeat split; cbn; [lia|exact Hr|exact Hu].
Qed.

Lemma preserves_Surface_blit surface source dest area flags :
  preserves wf (Surface_blit surface source dest area flags).
Proof.
  intros w Hw. unfold Surface_blit, bind, lookup_in.
  destruct (surfaces w !! surface); [|exact Hw].
  apply (wf_frame w); [exact Hw|reflexivity|apply Hw].
Qed.

Lemma preserves_Sprite_kill self : preserves wf (Sprite_kill self).
Proof.
  intros w Hw. cbn. apply (wf_frame w); [exact Hw|reflexivity|apply Hw].
Qed.

Lemma preserves_Sprite_add self group : preserves wf (Sprite_add self group).
Proof.
  intros w Hw. unfold Sprite_add, bind, lookup_in.
  destruct (groups w !! group); [|exact Hw].
  apply (wf_frame w); [exact Hw|reflexivity|apply Hw].
Qed.

Lemma defaults_set_updater r u w :
  defaults_present w ->
  (r = DEFAULT_PARTICLE_MOTION -> exists p v a, u = BasicParticleUpdater p v a) ->
  defaults_present (set_updaters (insert r u) w).
Proof.
  intros (Hn & Hr & Hu) Hk. repeat split; [exact Hn|exact Hr|].
  cbn. rewrite lookup_insert. case_decide; [|exact Hu].
  destruct (Hk ltac:(assumption)) as (p & v & a & ->). eauto.
Qed.

Lemma defaults_at_motion w u :
  defaults_present w -> updaters w !! DEFAULT_PARTICLE_MOTION = Some u ->
  exists p v a, u = BasicParticleUpdater p v a.
Proof.
  intros (_ & _ & p & v & a & Hu) Hl. rewrite Hu in Hl. injection Hl as <-. eauto.
Qed.

Lemma preserves_Updater_set_particle r p : preserves wf (Updater_set_particle r p).
Proof.
  intros w Hw. unfold Updater_set_particle, bind, lookup_in.
  destruct (updaters w !! r) as [u|] eqn:Hu; [|exact Hw].
  apply (wf_frame w); [exact Hw|reflexivity|].
  apply defaults_set_updater; [apply Hw|]. intros ->.
  destruct (defaults_at_motion w u (proj1 Hw) Hu) as (q & v & a & ->). cbn. eauto.
Qed.

Lemma preserves_set_velocity r v : preserves wf (BasicParticleUpdater_set_velocity r v).
Proof.
  intros w Hw. unfold BasicParticleUpdater_set_velocity, bind, lookup_in.
  destruct (updaters w !! r) as [[q v0 a|q|q ms oc]|] eqn:Hu; try exact Hw.
  apply (wf_frame w); [exact Hw|reflexivity|].
  apply defaults_set_updater; [apply Hw|]. eauto.
Qed.

Lemma preserves_set_accel r a : preserves wf (BasicParticleUpdater_set_accel r a).
Proof.
  intros w Hw. unfold BasicParticleUpdater_set_accel, bind, lookup_in.
  destruct (updaters w !! r) as [[q v0 a0|q|q ms oc]|] eqn:Hu; try exact Hw.
  apply (wf_frame w); [exact Hw|reflexivity|].
  apply defaults_set_updater; [apply Hw|]. eauto.
Qed.

Lemma preserves_new_BasicParticleUpdater p v a :
  preserves wf (new_BasicParticleUpdater p v a).
Proof.
  intros w Hw. cbn. apply (wf_frame w); [exact Hw|reflexivity|].
  destruct Hw as [(Hn & Hr & Hu) _]. repeat split; cbn; [lia|exact Hr|].
  rewrite lookup_insert_ne; [exact Hu|]. unfold DEFAULT_PARTICLE_MOTION. lia.
Qed.

Lemma preserves_new_ScriptedUpdater p moves outcome :
  preserves wf (new_ScriptedUpdater p moves outcome).
Proof.
  intros w Hw. cbn. apply (wf_frame w); [exact Hw|reflexivity|].
  destruct Hw as [(Hn & Hr & Hu) _]. repeat split; cbn; [lia|exact Hr|].
  rewrite lookup_insert_ne; [exact Hu|]. unfold DEFAULT_PARTICLE_MOTION. lia.
Qed.

Lemma preserves_new_renderer r : preserves wf (new_renderer r).
Proof.
  intros w Hw. cbn. apply (wf_frame w); [exact Hw|reflexivity|].
  destruct Hw as [(Hn & Hr & Hu) _]. repeat split; cbn; [lia| |exact Hu].
  rewrite lookup_insert_ne; [exact Hr|]. unfold DEFAULT_RENDERER. lia.
Qed.

Lemma preserves_new_Surface size : preserves wf (new_Surface size).
Proof.
  intros w Hw. cbn. apply (wf_frame w); [exact Hw|reflexivity|].
  destruct Hw as [(Hn & Hr & Hu) _]. repeat split; cbn; [lia|exact Hr|exact Hu].
Qed.

Lemma preserves_new_ParticleSystem : preserves wf new_ParticleSystem.
Proof.
  intros w Hw. cbn. apply (wf_frame w); [exact Hw|reflexivity|].
  destruct Hw as [(Hn & Hr & Hu) _]. repeat split; cbn; [lia|exact Hr|exact Hu].
Qed.

Lemma good_with_image v o : good o -> good (with_image v o).
Proof. intros Hg. exact Hg. Qed.

Lemma good_with_position v o : good o -> good (with_position v o).
Proof. intros Hg. exact Hg. Qed.

Lemma good_with_scale v o : good o -> good (with_scale v o).
Proof. intros Hg. exact Hg. Qed.

Lemma good_with_rotation v o : good o -> good (with_rotation v o).
Proof. intros Hg. exact Hg. Qed.

Lemma good_with_rect v o : good o -> good (with_rect v o).
Proof. intros Hg. exact Hg. Qed.

Lemma good_with_lifespan v o : good o -> good (with_lifespan v o).
Proof. intros Hg. exact Hg. Qed.

Lemma good_with_renderer r o : good o -> good (with_renderer (PyRef r) o).
Proof. intros [_ Hu]. split; [|exact Hu]. eexists; reflexivity. Qed.

Lemma good_with_updater_ref r o : good o -> good (with_updater (PyRef r) o).
Proof. intros [Hr _]. split; [exact Hr|]. intros _. eexists. reflexivity. Qed.

End WellFormed.

#[export] Hint Resolve preserves_fresh preserves_Surface_blit preserves_Sprite_kill
  preserves_Sprite_add preserves_Updater_set_particle preserves_set_velocity
  preserves_set_accel preserves_new_BasicParticleUpdater preserves_new_ScriptedUpdater
  preserves_new_renderer
  preserves_new_Surface preserves_new_ParticleSystem : pres.
#[export] Hint Resolve good_with_image good_with_position good_with_scale
  good_with_rotation good_with_rect good_with_lifespan good_with_renderer
  good_with_updater_ref : pres.
#[export] Hint Extern 2 (preserves wf (setattr _ _)) =>
  apply preserves_setattr; intros; eauto with pres : pres.

Section WellFormedMethods.
Context `{Pygame}.

Lemma preserves_GameObject_position self : preserves wf (GameObject_position self).
Proof. unfold GameObject_position. pres. Qed.

Lemma preserves_GameObject_scale self : preserves wf (GameObject_scale self).
Proof. unfold GameObject_scale. pres. Qed.

Lemma preserves_GameObject_rotation self : preserves wf (GameObject_rotation self).
Proof. unfold GameObject_rotation. pres. Qed.

Lemma preserves_GameObject_renderer self : preserves wf (GameObject_renderer self).
Proof. unfold GameObject_renderer. pres. Qed.

Lemma preserves_GameObject_set_position self p :
  preserves wf (GameObject_set_position self p).
Proof. unfold GameObject_set_position. pres. Qed.

Lemma preserves_GameObject_set_scale self s :
  preserves wf (GameObject_set_scale self s).
Proof. unfold GameObject_set_scale. pres. Qed.

Lemma preserves_GameObject_set_rotation self r :
  preserves wf (GameObject_set_rotation self r).
Proof. unfold GameObject_set_rotation. pres. Qed.

Lemma preserves_GameObject_set_renderer self r :
  preserves wf (GameObject_set_renderer self r).
Proof. unfold GameObject_set_renderer. pres. Qed.

Hint Resolve preserves_GameObject_position preserves_GameObject_scale
  preserves_GameObject_rotation preserves_GameObject_renderer
  preserves_GameObject_set_position preserves_GameObject_set_scale
  preserves_GameObject_set_rotation preserves_GameObject_set_renderer : pres.

Lemma preserves_Surface_get_rect surface : preserves wf (Surface_get_rect surface).
Proof. unfold Surface_get_rect. pres. Qed.
Hint Resolve preserves_Surface_get_rect : pres.

Lemma preserves_BasicRenderer_call g s area flags :
  preserves wf (BasicRenderer_call g s area flags).
Proof. unfold BasicRenderer_call. pres. Qed.

Lemma preserves_BasicRenderer_hitbox g : preserves wf (BasicRenderer_hitbox g).
Proof. unfold BasicRenderer_hitbox. pres. Qed.
Hint Resolve preserves_BasicRenderer_call preserves_BasicRenderer_hitbox : pres.

Lemma preserves_call_renderer r g s area flags :
  preserves wf (call_renderer r g s area flags).
Proof. unfold call_renderer, StackRenderer_call. pres. Qed.

Lemma preserves_renderer_hitbox r g : preserves wf (renderer_hitbox r g).
Proof. unfold renderer_hitbox, StackRenderer_hitbox. pres. Qed.
Hint Resolve preserves_call_renderer preserves_renderer_hitbox : pres.

Lemma preserves_BasicParticleUpdater_call u dt :
  preserves wf (BasicParticleUpdater_call u dt).
Proof.
  unfold BasicParticleUpdater_call, Updater_particle,
    BasicParticleUpdater_velocity, BasicParticleUpdater_accel.
  pres.
Qed.
Hint Resolve preserves_BasicParticleUpdater_call : pres.

Lemma preserves_ScriptedUpdater_call moves outcome :
  preserves wf (ScriptedUpdater_call moves outcome).
Proof. unfold ScriptedUpdater_call. pres. Qed.
Hint Resolve preserves_ScriptedUpdater_call : pres.

Lemma preserves_call_updater u dt : preserves wf (call_updater u dt).
Proof. unfold call_updater. pres. Qed.
Hint Resolve preserves_call_updater : pres.

Lemma preserves_GameObject_update self dt : preserves wf (GameObject_update self dt).
Proof. unfold GameObject_update. pres. Qed.

Lemma preserves_GameObject_draw self s area flags :
  preserves wf (GameObject_draw self s area flags).
Proof. unfold GameObject_draw. pres. Qed.
Hint Resolve preserves_GameObject_update preserves_GameObject_draw : pres.

Lemma preserves_Particle_set_updater self u : preserves wf (Particle_set_updater self u).
Proof. unfold Particle_set_updater. pres. Qed.
Hint Resolve preserves_Particle_set_updater : pres.

Lemma preserves_set_updater self u : preserves wf (set_updater self u).
Proof.
  intros w Hw. unfold set_updater, bind, lookup_in.
  destruct (objects w !! self) as [o|] eqn:Ho; [|exact Hw].
  destruct (cls o) eqn:Hc.
  - rewrite (setattr_Some _ _ _ _ Ho). cbn. apply wf_set_object; [exact Hw|].
    split; [apply (proj2 Hw self o Ho)|]. cbn. congruence.
  - apply preserves_Particle_set_updater. exact Hw.
Qed.
Hint Resolve preserves_set_updater : pres.

Lemma preserves_Particle_update self dt fps : preserves wf (Particle_update self dt fps).
Proof. unfold Particle_update. pres. Qed.

Lemma preserves_Particle_draw self s area flags :
  preserves wf (Particle_draw self s area flags).
Proof. unfold Particle_draw. pres. Qed.
Hint Resolve preserves_Particle_update preserves_Particle_draw : pres.

Lemma preserves_update self dt fps : preserves wf (update self dt fps).
Proof. unfold update. pres. Qed.

Lemma preserves_draw self s area flags : preserves wf (draw self s area flags).
Proof. unfold draw. pres. Qed.
Hint Resolve preserves_update preserves_draw : pres.

Lemma preserves_ParticleSystem_update g dt fps :
  preserves wf (ParticleSystem_update g dt fps).
Proof. unfold ParticleSystem_update. pres. Qed.

Lemma preserves_ParticleSystem_draw g s area flags :
  preserves wf (ParticleSystem_draw g s area flags).
Proof. unfold ParticleSystem_draw. pres. Qed.

(** *** Constructors: the instance is completed before anything can raise *)

Lemma hoare_bind_noexn {A B} (P : World -> Prop) (c : M A) (k : A -> M B) Q R E :
  hoare P c Q (fun _ _ => False) ->
  (forall a, hoare (Q a) (k a) R E) ->
  hoare P (bind c k) R E.
Proof.
  intros Hc Hk. eapply hoare_bind; [|exact Hk].
  eapply hoare_conseq; [exact Hc| | |]; cbn; tauto.
Qed.

Lemma hoare_alloc c :
  hoare wf (alloc c) (fun self => wf_but self (fun o => cls o = c)) (fun _ _ => False).
Proof.
  intros w [Hd Hg]. cbn. split.
  - destruct Hd as (Hn & Hr & Hu). repeat split; cbn; [lia|exact Hr|exact Hu].
  - split.
    + eexists. cbn. rewrite lookup_insert_eq. split; reflexivity.
    + intros r o Hne. cbn. rewrite lookup_insert_ne by congruence. apply Hg.
Qed.

Lemma hoare_set_updater_but self u c :
  hoare (wf_but self (fun o => cls o = c /\ has_renderer o)) (set_updater self u)
    (fun _ => wf) (fun _ => wf).
Proof.
  intros w Hw. pose proof Hw as (Hd & (o & Ho & Hc & Hr) & Hg).
  unfold set_updater. rewrite (bind_Return _ _ _ _ _ (lookup_in_Some objects _ _ _ Ho)).
  destruct (cls o) eqn:Hcls.
  - rewrite (setattr_Some _ _ _ _ Ho). cbn. apply (wf_but_wf self).
    eapply wf_but_set_object; [exact Hw|]. split; [exact Hr|]. cbn. congruence.
  - unfold Particle_set_updater.
    rewrite (bind_Return _ _ _ _ _ (setattr_Some _ _ _ _ Ho)).
    apply preserves_Updater_set_particle. apply (wf_but_wf self).
    eapply wf_but_set_object; [exact Hw|]. split; [exact Hr|].
    intros _. eexists. reflexivity.
Qed.

Lemma hoare_GameObject_init self texture position scale rotation renderer u c :
  hoare (wf_but self (fun o => cls o = c))
    (GameObject_init self texture position scale rotation renderer u)
    (fun _ => wf) (fun _ => wf).
Proof.
  unfold GameObject_init, GameObject_set_position, GameObject_set_scale,
    GameObject_set_rotation, GameObject_set_renderer.
  do 4 (eapply hoare_bind_noexn;
        [apply (hoare_setattr_but _ _ _ (fun o => cls o = c)); intros o Ho; exact Ho
        |intros ?]).
  eapply hoare_bind_noexn;
    [apply (hoare_setattr_but _ _ _ (fun o => cls o = c /\ has_renderer o))|intros ?].
  { intros o Ho. split; [exact Ho|]. eexists; reflexivity. }
  eapply hoare_bind; [apply hoare_set_updater_but|intros ?].
  as_preserves. pres.
Qed.

Lemma preserves_new_GameObject texture position scale rotation renderer u :
  preserves wf (new_GameObject texture position scale rotation renderer u).
Proof.
  unfold new_GameObject.
  eapply hoare_bind_noexn; [apply hoare_alloc|intros self].
  eapply hoare_bind; [apply hoare_GameObject_init|intros ?].
  apply preserves_ret.
Qed.

Lemma preserves_new_Particle texture position scale rotation renderer u l :
  preserves wf (new_Particle texture position scale rotation renderer u l).
Proof.
  unfold new_Particle, Particle_init.
  eapply hoare_bind_noexn; [apply hoare_alloc|intros self].
  eapply hoare_bind; [|intros ?; apply preserves_ret].
  eapply hoare_bind; [apply hoare_GameObject_init|intros ?].
  as_preserves. pres.
Qed.

(** Every operation keeps a well-formed store well formed, whether it
    returns or raises. *)
Lemma run_preserves_wf c : preserves wf (run c).
Proof.
  destruct c; cbn [run]; pres;
    auto using preserves_new_GameObject, preserves_new_Particle,
      preserves_ParticleSystem_update, preserves_ParticleSystem_draw.
Qed.

Lemma run_all_wf cs w : wf w -> wf (run_all cs w).
Proof.
  revert w. induction cs as [|c cs IH]; intros w Hw; cbn [run_all]; [exact Hw|].
  apply IH. pose proof (run_preserves_wf c w Hw) as Hc.
  destruct (run c w) as [w' [[]|e]]; exact Hc.
Qed.
End WellFormedMethods.

(** ** Renderers *)

Section Rendering.
Context `{Pygame}.

(** C6. The stack renderer's draw and hitbox raise the
    not-implemented failure whenever they are invoked, leaving the
    store as it was, and the failure reaches the caller of the
    renderer and the caller of [GameObject.draw]. *)
Theorem stack_renderer_raises_and_propagates
    gameobject surface area special_flags w o rr spread :
  objects w !! gameobject = Some o ->
  _renderer o = Some (PyRef rr) ->
  renderers w !! rr = Some (StackRenderer spread) ->
  StackRenderer_call gameobject surface area special_flags w
    = (w, Raise NotImplementedError) /\
  StackRenderer_hitbox gameobject w = (w, Raise NotImplementedError) /\
  call_renderer (PyRef rr) gameobject surface area special_flags w
    = (w, Raise NotImplementedError) /\
  renderer_hitbox (PyRef rr) gameobject w = (w, Raise NotImplementedError) /\
  GameObject_draw gameobject surface area special_flags w
    = (w, Raise NotImplementedError).
Proof.
  intros Ho Hr Hrr.
  assert (Hcall : forall a f, call_renderer (PyRef rr) gameobject surface a f w
                              = (w, Raise NotImplementedError)).
  { intros a f. unfold call_renderer.
    now rewrite (bind_Return _ _ _ _ _ (lookup_in_Some renderers _ _ _ Hrr)). }
  repeat split; try reflexivity.
  - apply Hcall.
  - unfold renderer_hitbox.
    now rewrite (bind_Return _ _ _ _ _ (lookup_in_Some renderers _ _ _ Hrr)).
  - unfold GameObject_draw, GameObject_renderer.
    rewrite (bind_Return _ _ _ _ _ (getattr_Some _renderer _ _ _ _ Ho Hr)).
    apply Hcall.
Qed.

(** What [BasicRenderer.__call__] does once the texture is known to
    lie on the surface: one composite, with the area and the flags it
    was given. *)
Lemma BasicRenderer_call_blits gameobject surface area special_flags w o
    img scale wd ht scaled rotation texture t position trect px py :
  objects w !! gameobject = Some o ->
  image o = Some img -> _scale o = Some scale ->
  py_round (x scale) = Return wd -> py_round (y scale) = Return ht ->
  transform_scale img (wd, ht) = Return scaled ->
  _rotation o = Some rotation ->
  transform_rotate scaled rotation = Return texture ->
  surfaces w !! surface = Some t ->
  _position o = Some position ->
  get_rect_center texture (x position, y position) = Return trect ->
  colliderect (mkRect 0 0 (fst (target_size t)) (snd (target_size t))) trect = true ->
  py_round (x position) = Return px -> py_round (y position) = Return py ->
  BasicRenderer_call gameobject surface area special_flags w
    = (set_surfaces (insert surface
         (mkTarget _ (target_size t)
            (mkBlit _ texture (px - get_width texture / 2, py - get_height texture / 2)
               area special_flags :: blits t))) w, Return tt).
Proof.
  intros Ho Himg Hsc Hwd Hht Hscaled Hrot Htex Ht Hpos Hrect Hcol Hpx Hpy.
  unfold BasicRenderer_call, GameObject_scale, GameObject_rotation,
    GameObject_position, Surface_get_rect, Surface_blit.
  rewrite (bind_Return _ _ _ _ _ (getattr_Some image _ _ _ _ Ho Himg)).
  rewrite (bind_Return _ _ _ _ _ (getattr_Some _scale _ _ _ _ Ho Hsc)).
  rewrite Hwd, Hht. unfold bind at 1 2. cbn [lift]. rewrite Hscaled.
  unfold bind at 1. cbn [lift].
  rewrite (bind_Return _ _ _ _ _ (getattr_Some _rotation _ _ _ _ Ho Hrot)).
  rewrite Htex. unfold bind at 1. cbn [lift].
  unfold bind at 1.
  rewrite (bind_Return _ _ _ _ _ (lookup_in_Some surfaces _ _ _ Ht)). cbn [ret].
  rewrite (bind_Return _ _ _ _ _ (getattr_Some _position _ _ _ _ Ho Hpos)).
  rewrite Hrect. unfold bind at 1. cbn [lift]. rewrite Hcol. cbn [negb].
  rewrite (bind_Return _ _ _ _ _ (getattr_Some _position _ _ _ _ Ho Hpos)).
  rewrite Hpx, Hpy. unfold bind at 1 2. cbn [lift].
  now rewrite (bind_Return _ _ _ _ _ (lookup_in_Some surfaces _ _ _ Ht)).
Qed.

(** C9. When the bounding rectangle of the scaled and rotated texture,
    centred at the position of the object, does not meet the
    rectangle of the surface, drawing with the basic renderer returns
    with the store as it was: no composite is made and the surface is
    unchanged. *)
Theorem BasicRenderer_culls_off_screen gameobject surface area special_flags w o
    img scale wd ht scaled rotation texture t position trect rr :
  objects w !! gameobject = Some o ->
  image o = Some img -> _scale o = Some scale ->
  py_round (x scale) = Return wd -> py_round (y scale) = Return ht ->
  transform_scale img (wd, ht) = Return scaled ->
  _rotation o = Some rotation ->
  transform_rotate scaled rotation = Return texture ->
  surfaces w !! surface = Some t ->
  _position o = Some position ->
  get_rect_center texture (x position, y position) = Return trect ->
  colliderect (mkRect 0 0 (fst (target_size t)) (snd (target_size t))) trect = false ->
  _renderer o = Some (PyRef rr) ->
  renderers w !! rr = Some BasicRenderer ->
  BasicRenderer_call gameobject surface area special_flags w = (w, Return tt) /\
  GameObject_draw gameobject surface area special_flags w = (w, Return tt) /\
  surfaces (fst (GameObject_draw gameobject surface area special_flags w)) !! surface
    = Some t.
Proof.
  intros Ho Himg Hsc Hwd Hht Hscaled Hrot Htex Ht Hpos Hrect Hcol Hr Hrr.
  assert (Hcall : forall a f, BasicRenderer_call gameobject surface a f w = (w, Return tt)).
  { intros a f.
    unfold BasicRenderer_call, GameObject_scale, GameObject_rotation,
      GameObject_position, Surface_get_rect.
    exec. rewrite Hwd. exec. rewrite Hht. exec. rewrite Hscaled. exec.
    rewrite Htex. exec. rewrite Hrect. exec. now rewrite Hcol. }
  assert (Hdraw : GameObject_draw gameobject surface area special_flags w = (w, Return tt)).
  { unfold GameObject_draw, GameObject_renderer, call_renderer. exec. cbv iota.
    exec. apply Hcall. }
  split; [apply Hcall|]. split; [exact Hdraw|]. now rewrite Hdraw.
Qed.
End Rendering.

(** C7. [GameObject.draw] does not forward its [area] and
    [special_flags]: it calls the renderer with [None] and [0] whatever
    it was given.  In the example the object is drawn with the area
    [Rect(0, 0, 5, 5)] and the flag [1], and the composite that reaches
    the surface carries no area and the flag [0]. *)
Theorem GameObject_draw_drops_area_and_flags :
  (forall (H : Pygame) self surface area special_flags,
      GameObject_draw self surface area special_flags
      = GameObject_draw self surface None 0) /\
  (let '(w, r) := scene_draw_flags import_module in
   r = Return 2%nat /\
   blits <$> surfaces w !! 2%nat = Some [mkBlit SizeRaster square (0, 0) None 0]).
Proof.
  split; [reflexivity|]. split; reflexivity.
Qed.

(** ** Updaters *)

Section Updating.
Context `{Pygame}.

(** A computation that never raises [TypeError]. *)
Definition no_TypeError {A} (c : M A) : Prop :=
  hoare (fun _ => True) c (fun _ _ => True) (fun e _ => e <> TypeError).

Lemma no_TypeError_bind {A B} (c : M A) (k : A -> M B) :
  no_TypeError c -> (forall a, no_TypeError (k a)) -> no_TypeError (bind c k).
Proof. intros Hc Hk. eapply hoare_bind; [exact Hc|]. intros a. apply Hk. Qed.

Lemma no_TypeError_ret {A} (a : A) : no_TypeError (ret a).
Proof. intros w _. exact I. Qed.

Lemma no_TypeError_raise {A} e : e <> TypeError -> no_TypeError (A:=A) (raise e).
Proof. intros He w _. exact He. Qed.

Lemma no_TypeError_lookup_in {A} (store : World -> gmap ref A) r :
  no_TypeError (lookup_in store r).
Proof. intros w _. unfold lookup_in. destruct (store w !! r); [exact I|discriminate]. Qed.

Lemma no_TypeError_getattr {A} (attr : GameObject -> option A) self :
  no_TypeError (getattr attr self).
Proof.
  unfold getattr. apply no_TypeError_bind; [apply no_TypeError_lookup_in|].
  intros o. destruct (attr o); [apply no_TypeError_ret|].
  apply no_TypeError_raise. discriminate.
Qed.

Lemma no_TypeError_setattr self upd : no_TypeError (setattr self upd).
Proof.
  unfold setattr. apply no_TypeError_bind; [apply no_TypeError_lookup_in|].
  intros o w _. exact I.
Qed.

Lemma no_TypeError_BasicParticleUpdater_call r dt :
  no_TypeError (BasicParticleUpdater_call r dt).
Proof.
  unfold BasicParticleUpdater_call, Updater_particle, BasicParticleUpdater_velocity,
    BasicParticleUpdater_accel, BasicParticleUpdater_set_velocity,
    GameObject_position, GameObject_set_position.
  repeat first
    [ apply no_TypeError_bind; [|intros ?]
    | apply no_TypeError_lookup_in
    | apply no_TypeError_getattr
    | apply no_TypeError_setattr
    | apply no_TypeError_ret
    | apply no_TypeError_raise; discriminate
    | match goal with
      | |- no_TypeError (match ?v with _ => _ end) => destruct v
      end
    | intros ? _; exact I ].
Qed.

Lemma BasicParticleUpdater_call_no_TypeError r dt w :
  forall w', BasicParticleUpdater_call r dt w <> (w', Raise TypeError).
Proof.
  intros w' Hc. pose proof (no_TypeError_BasicParticleUpdater_call r dt w I) as Hn.
  rewrite Hc in Hn. now apply Hn.
Qed.

(** C5, as amended.  [GameObject.update(dt)] never lets a [TypeError]
    out.  When there is no updater, or the attached one cannot be
    called with [dt], it returns with the store as it was.  A
    [TypeError] raised by the body of the updater is caught as well,
    and the changes the body made before it stay: an updater that
    moves [q] to [v] and then raises leaves [q] at [v].  In every other
    case it is the call of the attached updater, errors included; the
    kinematic updater never raises a [TypeError]. *)
Theorem GameObject_update_swallows_TypeError self dt w o u :
  objects w !! self = Some o ->
  updater o = Some u ->
  (updater_mismatch w u = true ->
     call_updater u dt w = (w, Raise TypeError) /\
     GameObject_update self dt w = (w, Return tt)) /\
  (forall w', call_updater u dt w = (w', Raise TypeError) ->
     GameObject_update self dt w = (w', Return tt)) /\
  (forall w' res, call_updater u dt w = (w', res) -> res <> Raise TypeError ->
     GameObject_update self dt w = (w', res)) /\
  (forall r p v a, u = PyRef r ->
     updaters w !! r = Some (BasicParticleUpdater p v a) ->
     GameObject_update self dt w = BasicParticleUpdater_call r dt w) /\
  (forall r p q v oq, u = PyRef r ->
     updaters w !! r = Some (ScriptedUpdater p [(q, v)] (Raise TypeError)) ->
     objects w !! q = Some oq ->
     GameObject_update self dt w
     = (set_objects (insert q (with_position v oq)) w, Return tt)) /\
  snd (GameObject_update self dt w) <> Raise TypeError.
Proof.
  intros Ho Hu.
  assert (Hup : GameObject_update self dt w
                = match call_updater u dt w with
                  | (w', Raise TypeError) => (w', Return tt)
                  | r => r
                  end).
  { unfold GameObject_update, try_except. exec.
    destruct (call_updater u dt w) as [w' [[]|[]]]; reflexivity. }
  split; [|split; [|split; [|split; [|split]]]].
  - intros Hm.
    assert (Hc : call_updater u dt w = (w, Raise TypeError)).
    { unfold updater_mismatch in Hm. unfold call_updater.
      destruct u as [|r]; [reflexivity|]. unfold bind, lookup_in.
      destruct (updaters w !! r) as [[]|]; try discriminate. reflexivity. }
    split; [exact Hc|]. rewrite Hup, Hc. reflexivity.
  - intros w' Hc. rewrite Hup, Hc. reflexivity.
  - intros w' res Hc Hne. rewrite Hup, Hc.
    destruct res as [[]|[]]; try reflexivity. now destruct Hne.
  - intros r p v a -> Hr. rewrite Hup. unfold call_updater, bind, lookup_in.
    rewrite Hr. pose proof (BasicParticleUpdater_call_no_TypeError r dt w) as Hno.
    destruct (BasicParticleUpdater_call r dt w) as [w' [[]|[]]]; try reflexivity.
    now destruct (Hno w').
  - intros r p q v oq -> Hr Hq. rewrite Hup. unfold call_updater.
    erewrite bind_Return; [|eapply lookup_in_Some; exact Hr].
    unfold ScriptedUpdater_call, for_each, GameObject_set_position.
    cbn [fst snd]. rewrite !bind_bind.
    erewrite bind_Return; [|eapply setattr_Some; exact Hq].
    reflexivity.
  - rewrite Hup. destruct (call_updater u dt w) as [w' [[]|[]]]; cbn; discriminate.
Qed.

(** C2. One call of the kinematic updater moves the bound entity by
    the velocity it had before the call, and then adds the
    acceleration to the velocity; a second call therefore moves the
    entity by the new velocity.  With velocity [(0, 0)], acceleration
    [(1, 0)] and [dt = 1] the position is the same and the velocity is
    [(1, 0)]. *)
Theorem kinematic_step_position_then_velocity u dt w p o pos vel acc :
  updaters w !! u = Some (BasicParticleUpdater (PyRef p) vel acc) ->
  objects w !! p = Some o ->
  _position o = Some pos ->
  let pos' := add pos (mul vel dt) in
  let vel' := add vel (mul acc dt) in
  let w' := set_updaters (insert u (BasicParticleUpdater (PyRef p) vel' acc))
              (set_objects (insert p (with_position pos' o)) w) in
  BasicParticleUpdater_call u dt w = (w', Return tt) /\
  GameObject_position p w' = (w', Return pos') /\
  BasicParticleUpdater_velocity u w' = (w', Return vel') /\
  BasicParticleUpdater_accel u w' = (w', Return acc) /\
  (exists w'', BasicParticleUpdater_call u dt w' = (w'', Return tt) /\
     GameObject_position p w'' = (w'', Return (add pos' (mul vel' dt)))) /\
  same_vector (add pos (mul (mkVector2 0 0) 1)) pos /\
  add (mkVector2 0 0) (mul (mkVector2 1 0) 1) = mkVector2 1 0.
Proof.
  intros Hu Ho Hpos pos' vel' w'.
  assert (Hstep : forall w0 o0 pos0 vel0,
    updaters w0 !! u = Some (BasicParticleUpdater (PyRef p) vel0 acc) ->
    objects w0 !! p = Some o0 -> _position o0 = Some pos0 ->
    BasicParticleUpdater_call u dt w0
    = (set_updaters (insert u (BasicParticleUpdater (PyRef p) (add vel0 (mul acc dt)) acc))
         (set_objects (insert p (with_position (add pos0 (mul vel0 dt)) o0)) w0),
       Return tt)).
  { intros w0 o0 pos0 vel0 Hu0 Ho0 Hpos0.
    unfold BasicParticleUpdater_call, Updater_particle, BasicParticleUpdater_velocity,
      BasicParticleUpdater_accel, BasicParticleUpdater_set_velocity,
      GameObject_position, GameObject_set_position.
    exec. cbv iota. exec. cbv iota. exec. cbv iota. reflexivity. }
  assert (Hu' : updaters w' !! u = Some (BasicParticleUpdater (PyRef p) vel' acc)).
  { cbn. apply lookup_insert_eq. }
  assert (Ho' : objects w' !! p = Some (with_position pos' o)).
  { cbn. apply lookup_insert_eq. }
  split; [now apply Hstep|].
  split; [unfold GameObject_position; now apply (getattr_Some _ _ _ _ _ Ho')|].
  split; [unfold BasicParticleUpdater_velocity; now exec|].
  split; [unfold BasicParticleUpdater_accel; now exec|].
  split.
  - eexists. split; [now apply (Hstep w' _ pos' vel' Hu' Ho')|].
    unfold GameObject_position. eapply getattr_Some; [cbn; apply lookup_insert_eq|].
    reflexivity.
  - split; [|reflexivity].
    split; cbn; apply float_add_0_r.
Qed.
End Updating.

(** ** What a computation leaves alone *)

Section Frame.
Context `{Pygame}.
Variable r : ref.
Variable G : GameObject -> Prop.

Lemma obj_inv_frame w w' : obj_inv r G w -> objects w' = objects w -> obj_inv r G w'.
Proof. intros (o & Ho & HG) Heq. exists o. now rewrite Heq. Qed.

Lemma frame_setattr q upd :
  (forall o, G o -> G (upd o)) -> preserves (obj_inv r G) (setattr q upd).
Proof.
  intros Hupd w (o & Ho & HG). unfold setattr, bind, lookup_in.
  destruct (objects w !! q) as [oq|] eqn:Hq; [|exists o; auto].
  cbn. unfold obj_inv. cbn. destruct (decide (q = r)) as [->|Hne].
  - rewrite lookup_insert_eq. rewrite Ho in Hq. injection Hq as <-. eauto.
  - rewrite lookup_insert_ne by exact Hne. eauto.
Qed.

Lemma frame_setattr_ne q upd :
  q <> r -> preserves (obj_inv r G) (setattr q upd).
Proof.
  intros Hne w (o & Ho & HG). unfold setattr, bind, lookup_in.
  destruct (objects w !! q) as [oq|] eqn:Hq; [|exists o; auto].
  cbn. unfold obj_inv. cbn. rewrite lookup_insert_ne by exact Hne. eauto.
Qed.

Lemma frame_fresh : preserves (obj_inv r G) fresh.
Proof. intros w Hw. cbn. now apply (obj_inv_frame w). Qed.

Lemma frame_Surface_blit surface source dest area flags :
  preserves (obj_inv r G) (Surface_blit surface source dest area flags).
Proof.
  intros w Hw. unfold Surface_blit, bind, lookup_in.
  destruct (surfaces w !! surface); [|exact Hw]. now apply (obj_inv_frame w).
Qed.

Lemma frame_Sprite_kill self : preserves (obj_inv r G) (Sprite_kill self).
Proof. intros w Hw. cbn. now apply (obj_inv_frame w). Qed.

Lemma frame_Sprite_add self group : preserves (obj_inv r G) (Sprite_add self group).
Proof.
  intros w Hw. unfold Sprite_add, bind, lookup_in.
  destruct (groups w !! group); [|exact Hw]. now apply (obj_inv_frame w).
Qed.

Lemma frame_Updater_set_particle u p :
  preserves (obj_inv r G) (Updater_set_particle u p).
Proof.
  intros w Hw. unfold Updater_set_particle, bind, lookup_in.
  destruct (updaters w !! u); [|exact Hw]. now apply (obj_inv_frame w).
Qed.

Lemma frame_set_velocity u v :
  preserves (obj_inv r G) (BasicParticleUpdater_set_velocity u v).
Proof.
  intros w Hw. unfold BasicParticleUpdater_set_velocity, bind, lookup_in.
  destruct (updaters w !! u) as [[]|]; exact Hw.
Qed.

(** Drawing changes no instance. *)
Lemma frame_draw self surface area flags :
  preserves (obj_inv r G) (draw self surface area flags).
Proof.
  unfold draw, Particle_draw, GameObject_draw, GameObject_renderer, call_renderer,
    BasicRenderer_call, StackRenderer_call, GameObject_scale, GameObject_rotation,
    GameObject_position, Surface_get_rect.
  pres; apply frame_Surface_blit.
Qed.

(** The base update changes positions only. *)
Hypothesis G_position : forall v o, G o -> G (with_position v o).

Lemma frame_call_updater u dt : preserves (obj_inv r G) (call_updater u dt).
Proof.
  unfold call_updater, BasicParticleUpdater_call, ScriptedUpdater_call, Updater_particle,
    BasicParticleUpdater_velocity, BasicParticleUpdater_accel,
    GameObject_position, GameObject_set_position.
  pres; first [apply frame_set_velocity | apply frame_setattr; intros; now apply G_position].
Qed.

Lemma frame_GameObject_update self dt :
  preserves (obj_inv r G) (GameObject_update self dt).
Proof. unfold GameObject_update. pres. apply frame_call_updater. Qed.

(** The update of another particle changes its own lifespan, not ours. *)
Lemma frame_Particle_update_ne q dt fps :
  q <> r -> preserves (obj_inv r G) (Particle_update q dt fps).
Proof.
  intros Hne. unfold Particle_update.
  pres; first [ apply frame_GameObject_update | apply frame_Sprite_kill
              | now apply frame_setattr_ne ].
Qed.
End Frame.

(** ** The life of a particle *)

Section Lifecycle.
Context `{Pygame}.

Lemma GameObject_update_groups self dt w :
  groups (fst (GameObject_update self dt w)) = groups w.
Proof.
  assert (Hp : preserves (fun w' => groups w' = groups w) (GameObject_update self dt)).
  { assert (Hs : forall q upd, preserves (fun w' => groups w' = groups w) (setattr q upd)).
    { intros q upd w' Hw'. unfold setattr, bind, lookup_in.
      destruct (objects w' !! q); exact Hw'. }
    assert (Hv : forall u v, preserves (fun w' => groups w' = groups w)
                               (BasicParticleUpdater_set_velocity u v)).
    { intros u v w' Hw'. unfold BasicParticleUpdater_set_velocity, bind, lookup_in.
      destruct (updaters w' !! u) as [[]|]; exact Hw'. }
    unfold GameObject_update, call_updater, BasicParticleUpdater_call,
      ScriptedUpdater_call, Updater_particle,
      BasicParticleUpdater_velocity, BasicParticleUpdater_accel,
      GameObject_position, GameObject_set_position.
    pres; auto. }
  specialize (Hp w eq_refl).
  destruct (GameObject_update self dt w) as [w' [[]|e]]; exact Hp.
Qed.

Lemma GameObject_update_lifespan self dt w r :
  lifespan_of (fst (GameObject_update self dt w)) r = lifespan_of w r.
Proof.
  unfold lifespan_of at 2. destruct (objects w !! r) as [o|] eqn:Ho.
  - assert (Hi : obj_inv r (fun o' => lifespan o' = lifespan o) w) by (exists o; auto).
    apply (frame_GameObject_update r (fun o' => lifespan o' = lifespan o)
             (fun _ _ Hg => Hg) self dt) in Hi.
    unfold lifespan_of.
    destruct (GameObject_update self dt w) as [w' [[]|e]];
      destruct Hi as (o' & Ho' & Hl); cbn; now rewrite Ho'.
  - unfold lifespan_of.
    destruct (objects (GameObject_update self dt w).1 !! r) as [o'|] eqn:Ho'; [|reflexivity].
    exfalso.
    assert (Hp : preserves (fun w' => objects w' !! r = None) (GameObject_update self dt)).
    { assert (Hs : forall q v, preserves (fun w' => objects w' !! r = None)
                                 (setattr q (with_position v))).
      { intros q v w' Hw'. unfold setattr, bind, lookup_in.
        destruct (objects w' !! q) eqn:Hq; [|exact Hw']. cbn.
        rewrite lookup_insert_ne; [exact Hw'|]. congruence. }
      assert (Hv : forall u v, preserves (fun w' => objects w' !! r = None)
                                 (BasicParticleUpdater_set_velocity u v)).
      { intros u v w' Hw'. unfold BasicParticleUpdater_set_velocity, bind, lookup_in.
        destruct (updaters w' !! u) as [[]|]; exact Hw'. }
      unfold GameObject_update, call_updater, BasicParticleUpdater_call,
        ScriptedUpdater_call, Updater_particle,
        BasicParticleUpdater_velocity, BasicParticleUpdater_accel,
        GameObject_position, GameObject_set_position.
      pres; auto. }
    specialize (Hp w Ho).
    destruct (GameObject_update self dt w) as [w' [[]|e]]; cbn in *; congruence.
Qed.

(** Once dead, a particle ignores its own update and draw. *)
Lemma Particle_dead_noop self w o l :
  objects w !! self = Some o -> lifespan o = Some l -> (l =? 0)%float = true ->
  (forall dt fps, Particle_update self dt fps w = (w, Return tt)) /\
  (forall surface area flags, Particle_draw self surface area flags w = (w, Return tt)).
Proof.
  intros Ho Hl Hz. split.
  - intros dt fps. unfold Particle_update. exec.
    rewrite (float_zero_not_pos l Hz). exec. now rewrite Hz.
  - intros surface area flags. unfold Particle_draw. exec. now rewrite Hz.
Qed.

Lemma dead_preserved self l c :
  (l =? 0)%float = true ->
  updates_or_draws c = true ->
  preserves (obj_inv self (fun o => lifespan o = Some l)) (run c).
Proof.
  intros Hz Hc.
  assert (Hupd : forall q dt fps,
    preserves (obj_inv self (fun o => lifespan o = Some l)) (update q dt fps)).
  { intros q dt fps. destruct (decide (q = self)) as [->|Hne].
    - intros w (o & Ho & Hl). unfold update. exec.
      destruct (cls o), fps; cbn [raise].
      + exists o; auto.
      + apply (frame_GameObject_update self (fun o' => lifespan o' = Some l)
                 (fun _ _ Hg => Hg)). exists o; auto.
      + rewrite (proj1 (Particle_dead_noop self w o l Ho Hl Hz)). exists o; auto.
      + rewrite (proj1 (Particle_dead_noop self w o l Ho Hl Hz)). exists o; auto.
    - unfold update. pres;
        first [ apply frame_GameObject_update; auto
              | apply frame_Particle_update_ne; auto ]. }
  destruct c; try discriminate; cbn [run].
  - apply Hupd.
  - apply frame_draw.
  - unfold ParticleSystem_update. pres; apply Hupd.
  - unfold ParticleSystem_draw. pres; apply frame_draw.
Qed.

Lemma dead_stays_dead self l cs w :
  (l =? 0)%float = true ->
  Forall (fun c => updates_or_draws c = true) cs ->
  lifespan_of w self = Some l ->
  lifespan_of (run_all cs w) self = Some l.
Proof.
  intros Hz Hcs. revert w. induction Hcs as [|c cs Hc Hcs IH]; intros w Hw; [exact Hw|].
  cbn [run_all]. apply IH.
  assert (Hi : obj_inv self (fun o => lifespan o = Some l) w).
  { unfold lifespan_of in Hw. destruct (objects w !! self) as [o|] eqn:Ho; [|discriminate].
    exists o; auto. }
  apply (dead_preserved self l c Hz Hc) in Hi.
  unfold lifespan_of.
  destruct (run c w) as [w' [[]|e]]; destruct Hi as (o' & Ho' & Hl'); cbn; now rewrite Ho'.
Qed.

Lemma killed_in_no_group self f w :
  in_no_group (set_objects f (set_groups (fmap (fun members => members ∖ {[ self ]})) w)) self.
Proof.
  intros g members. cbn. rewrite lookup_fmap.
  destruct (groups w !! g) as [m|]; cbn; [|discriminate].
  intros Hm. assert (members = m ∖ {[ self ]}) as -> by congruence.
  rewrite elem_of_difference, elem_of_singleton. tauto.
Qed.

(** C1. [Particle.update] is the life cycle.  Alive ([lifespan > 0]):
    after the base update, the lifespan goes down by [dt / base_fps];
    when that leaves it at or below zero it is set to exactly [0.0]
    and the particle leaves every group.  Dead ([lifespan == 0]):
    update and draw return with the store as it was, and no sequence
    of update and draw calls changes the lifespan again.  Immortal
    ([lifespan < 0]): update is the base update, and the lifespan
    stays. *)
Theorem particle_lifecycle self dt base_fps w o l :
  objects w !! self = Some o ->
  lifespan o = Some l ->
  ((0 <? l)%float = true ->
   forall w1 d,
     GameObject_update self dt w = (w1, Return tt) ->
     py_truediv dt base_fps = Return d ->
     exists w2,
       Particle_update self dt base_fps w = (w2, Return tt) /\
       if (l - d <=? 0)%float
       then lifespan_of w2 self = Some 0%float /\ in_no_group w2 self
       else lifespan_of w2 self = Some (l - d)%float /\ groups w2 = groups w) /\
  ((l =? 0)%float = true ->
   Particle_update self dt base_fps w = (w, Return tt) /\
   (forall surface area flags,
       Particle_draw self surface area flags w = (w, Return tt)) /\
   forall cs, Forall (fun c => updates_or_draws c = true) cs ->
              lifespan_of (run_all cs w) self = Some l) /\
  ((l <? 0)%float = true ->
   Particle_update self dt base_fps w = GameObject_update self dt w /\
   lifespan_of (fst (Particle_update self dt base_fps w)) self = Some l).
Proof.
  intros Ho Hl.
  assert (Hlw : lifespan_of w self = Some l) by (unfold lifespan_of; now rewrite Ho).
  split; [|split].
  - intros Hpos w1 d Hbase Hd.
    pose proof (GameObject_update_lifespan self dt w self) as Hl1.
    pose proof (GameObject_update_groups self dt w) as Hg1.
    rewrite Hbase in Hl1, Hg1. cbn [fst] in Hl1, Hg1. rewrite Hlw in Hl1.
    unfold lifespan_of in Hl1.
    destruct (objects w1 !! self) as [o1|] eqn:Ho1; [|discriminate].
    set (w1' := set_objects (insert self (with_lifespan (l - d)%float o1)) w1).
    assert (Ho1' : objects w1' !! self = Some (with_lifespan (l - d)%float o1))
      by (cbn; apply lookup_insert_eq).
    assert (Hl1' : lifespan (with_lifespan (l - d)%float o1) = Some (l - d)%float)
      by reflexivity.
    unfold Particle_update. exec. rewrite Hpos. exec. rewrite Hd. exec.
    fold w1'. exec.
    destruct (l - d <=? 0)%float.
    + unfold Sprite_kill. exec.
      erewrite setattr_Some; [|exact Ho1'].
      eexists. split; [reflexivity|]. split.
      * unfold lifespan_of. cbn. now rewrite lookup_insert_eq.
      * apply killed_in_no_group.
    + eexists. split; [reflexivity|]. split.
      * unfold lifespan_of. now rewrite Ho1'.
      * exact Hg1.
  - intros Hz.
    destruct (Particle_dead_noop self w o l Ho Hl Hz) as [Hu Hd].
    split; [apply Hu|]. split; [exact Hd|].
    intros cs Hcs. now apply dead_stays_dead.
  - intros Hneg. destruct (float_neg_cases l Hneg) as [Hnp Hnz].
    assert (Heq : Particle_update self dt base_fps w = GameObject_update self dt w).
    { unfold Particle_update. exec. rewrite Hnp. exec. now rewrite Hnz. }
    split; [exact Heq|]. rewrite Heq.
    now rewrite GameObject_update_lifespan.
Qed.
End Lifecycle.

(** ** Construction *)

Section Construction.
Context `{Pygame}.

(** Computing a hitbox changes nothing. *)
Lemma renderer_hitbox_readonly r g w :
  fst (renderer_hitbox r g w) = w.
Proof.
  assert (Hp : preserves (fun w' => w' = w) (renderer_hitbox r g)).
  { unfold renderer_hitbox, BasicRenderer_hitbox, StackRenderer_hitbox,
      GameObject_scale, GameObject_rotation, GameObject_position.
    pres. }
  specialize (Hp w eq_refl).
  destruct (renderer_hitbox r g w) as [w' [hb|e]]; exact Hp.
Qed.

Lemma getattr_at {A} (attr : GameObject -> option A) self w o :
  objects w !! self = Some o ->
  getattr attr self w = (w, attr_result (attr o)).
Proof.
  intros Ho. unfold getattr. exec. now destruct (attr o).
Qed.

Lemma bind_lift {A B} (r : result A) (k : A -> M B) (f : A -> result B) w :
  (forall a, k a w = (w, f a)) ->
  bind (lift r) k w = (w, rbind r f).
Proof. intros Hk. unfold bind, lift. destruct r as [a|e]; [apply Hk|reflexivity]. Qed.

Lemma bind_getattr {A B} (attr : GameObject -> option A) self (k : A -> M B)
    (f : A -> result B) w o :
  objects w !! self = Some o ->
  (forall a, k a w = (w, f a)) ->
  bind (getattr attr self) k w = (w, rbind (attr_result (attr o)) f).
Proof.
  intros Ho Hk. unfold bind. rewrite (getattr_at _ _ _ _ Ho).
  destruct (attr o) as [a|]; [apply Hk|reflexivity].
Qed.

(** The hitbox is a function of the renderer and of the instance. *)
Lemma renderer_hitbox_at rr g w ro o :
  renderers w !! rr = Some ro ->
  objects w !! g = Some o ->
  renderer_hitbox (PyRef rr) g w = (w, hitbox_of ro o).
Proof.
  intros Hr Ho. unfold renderer_hitbox. exec. destruct ro; [|reflexivity].
  unfold BasicRenderer_hitbox, GameObject_scale, GameObject_rotation,
    GameObject_position, hitbox_of.
  apply (bind_getattr _ _ _ _ _ _ Ho). intros img.
  apply (bind_getattr _ _ _ _ _ _ Ho). intros scale.
  apply bind_lift. intros wd. apply bind_lift. intros ht.
  apply bind_lift. intros scaled.
  apply (bind_getattr _ _ _ _ _ _ Ho). intros rotation.
  apply bind_lift. intros texture.
  apply (bind_getattr _ _ _ _ _ _ Ho). intros position.
  reflexivity.
Qed.

Lemma bound_to_idem p u : bound_to p (bound_to p u) = bound_to p u.
Proof. now destruct u. Qed.

Lemma renderer_hitbox_eq r g w :
  renderer_hitbox r g w = (w, snd (renderer_hitbox r g w)).
Proof.
  pose proof (renderer_hitbox_readonly r g w) as Hr.
  destruct (renderer_hitbox r g w) as [w' res]. cbn in *. now subst.
Qed.

(** [GameObject(...)] in one step: the instance is filled in, then
    the hitbox decides between a finished instance and the error. *)
Lemma new_GameObject_spec texture position scale rotation renderer u w :
  let self := next_ref w in
  let o := built GameObject_cls texture position scale rotation renderer u in
  let w5 := set_objects (insert self o) (after_fresh w) in
  new_GameObject texture position scale rotation renderer u w
  = match snd (renderer_hitbox (PyRef (ref_or_default DEFAULT_RENDERER renderer))
                 self w5) with
    | Return hb => (set_objects (insert self (with_rect hb o)) (after_fresh w),
                    Return self)
    | Raise e => (w5, Raise e)
    end.
Proof.
  intros self o w5.
  unfold new_GameObject, alloc, GameObject_init, GameObject_set_position,
    GameObject_set_scale, GameObject_set_rotation, GameObject_set_renderer,
    set_updater, GameObject_renderer.
  exec. cbn [cls with_renderer with_rotation with_scale with_position with_image].
  exec.
  match goal with |- _ ?W = _ => change W with w5 end.
  unfold bind at 1. rewrite (renderer_hitbox_eq _ (next_ref w) w5). fold self.
  destruct (snd (renderer_hitbox _ self w5)) as [hb|e]; [|reflexivity].
  unfold w5. exec. reflexivity.
Qed.

(** [Particle(...)], likewise; the updater [r] it is given (or the
    default one) is bound to the new particle before the hitbox is
    computed. *)
Lemma new_Particle_spec texture position scale rotation renderer u l w uo :
  let self := next_ref w in
  let r := ref_or_default DEFAULT_PARTICLE_MOTION u in
  updaters w !! r = Some uo ->
  let o := built Particle_cls texture position scale rotation renderer (PyRef r) in
  let w0 := set_updaters (insert r (bound_to (PyRef self) uo)) (after_fresh w) in
  let w6 := set_objects (insert self o) w0 in
  new_Particle texture position scale rotation renderer u l w
  = match snd (renderer_hitbox (PyRef (ref_or_default DEFAULT_RENDERER renderer))
                 self w6) with
    | Return hb => (set_objects (insert self (with_lifespan l (with_rect hb o))) w0,
                    Return self)
    | Raise e => (w6, Raise e)
    end.
Proof.
  intros self r Hr o w0 w6.
  unfold new_Particle, alloc, Particle_init, GameObject_init, GameObject_set_position,
    GameObject_set_scale, GameObject_set_rotation, GameObject_set_renderer,
    set_updater, Particle_set_updater, GameObject_renderer, Updater_set_particle.
  exec. cbn [cls with_renderer with_rotation with_scale with_position with_image].
  exec. rewrite set_updaters_set_objects. exec.
  match goal with |- _ ?W = _ => change W with w6 end.
  unfold bind at 1. rewrite (renderer_hitbox_eq _ (next_ref w) w6). fold self.
  destruct (snd (renderer_hitbox _ self w6)) as [hb|e]; [|reflexivity].
  unfold w6. exec.
  change (cls (with_rect hb o)) with Particle_cls. cbv iota. fold r.
  unfold w0. exec. cbv beta.
  rewrite set_updaters_set_objects, set_updaters_insert_insert, bound_to_idem.
  exec. rewrite ?set_objects_insert_insert. reflexivity.
Qed.

(** With an updater that is not in the store, the binding fails. *)
Lemma new_Particle_invalid texture position scale rotation renderer u l w :
  let self := next_ref w in
  let r := ref_or_default DEFAULT_PARTICLE_MOTION u in
  updaters w !! r = None ->
  new_Particle texture position scale rotation renderer u l w
  = (set_objects (insert self
       (built Particle_cls texture position scale rotation renderer (PyRef r)))
       (after_fresh w), Raise InvalidReference).
Proof.
  intros self r Hr.
  unfold new_Particle, alloc, Particle_init, GameObject_init, GameObject_set_position,
    GameObject_set_scale, GameObject_set_rotation, GameObject_set_renderer,
    set_updater, Particle_set_updater, GameObject_renderer, Updater_set_particle.
  exec. cbn [cls with_renderer with_rotation with_scale with_position with_image].
  exec. unfold bind, lookup_in. store_simpl. fold r. now rewrite Hr.
Qed.

Lemma hitbox_Return_at rd self w o hb :
  objects w !! self = Some o ->
  snd (renderer_hitbox (PyRef rd) self w) = Return hb ->
  exists ro, renderers w !! rd = Some ro /\ hitbox_of ro o = Return hb.
Proof.
  intros Ho Hh. destruct (renderers w !! rd) as [ro|] eqn:Hr.
  - rewrite (renderer_hitbox_at _ _ _ _ _ Hr Ho) in Hh. eauto.
  - unfold renderer_hitbox in Hh.
    rewrite (bind_Raise _ _ _ _ _ (lookup_in_None renderers _ _ Hr)) in Hh.
    discriminate.
Qed.

(** C10. A construction that returns has stored, as [rect], what the
    [hitbox] of the assigned renderer returns for the new instance;
    with a [StackRenderer] assigned, the constructor of a
    [GameObject] and that of a [Particle] raise the not-implemented
    failure and return no instance.  Construction is decided by the
    hitbox: when it returns a rectangle, the constructor returns the
    new instance with that rectangle as its [rect] (and, for a
    [Particle], its lifespan); when it raises, the constructor raises
    the same, with the instance left without a [rect]. *)
Theorem construction_computes_hitbox texture position scale rotation renderer u l w :
  let rd := ref_or_default DEFAULT_RENDERER renderer in
  let r := ref_or_default DEFAULT_PARTICLE_MOTION u in
  (forall w' self,
      new_GameObject texture position scale rotation renderer u w = (w', Return self) ->
      exists o hb, objects w' !! self = Some o /\ _renderer o = Some (PyRef rd) /\
        rect o = Some hb /\ renderer_hitbox (PyRef rd) self w' = (w', Return hb)) /\
  (forall w' self,
      new_Particle texture position scale rotation renderer u l w = (w', Return self) ->
      exists o hb, objects w' !! self = Some o /\ _renderer o = Some (PyRef rd) /\
        rect o = Some hb /\ renderer_hitbox (PyRef rd) self w' = (w', Return hb)) /\
  (forall spread,
      renderers w !! rd = Some (StackRenderer spread) ->
      (exists w', new_GameObject texture position scale rotation renderer u w
                  = (w', Raise NotImplementedError)) /\
      (is_Some (updaters w !! r) ->
       exists w', new_Particle texture position scale rotation renderer u l w
                  = (w', Raise NotImplementedError))) /\
  (forall ro,
      renderers w !! rd = Some ro ->
      let o := built GameObject_cls texture position scale rotation renderer u in
      new_GameObject texture position scale rotation renderer u w
      = match hitbox_of ro o with
        | Return hb =>
            (set_objects (insert (next_ref w) (with_rect hb o)) (after_fresh w),
             Return (next_ref w))
        | Raise e => (set_objects (insert (next_ref w) o) (after_fresh w), Raise e)
        end) /\
  (forall ro uo,
      renderers w !! rd = Some ro ->
      updaters w !! r = Some uo ->
      let o := built Particle_cls texture position scale rotation renderer (PyRef r) in
      let w0 := set_updaters (insert r (bound_to (PyRef (next_ref w)) uo))
                  (after_fresh w) in
      new_Particle texture position scale rotation renderer u l w
      = match hitbox_of ro o with
        | Return hb =>
            (set_objects (insert (next_ref w) (with_lifespan l (with_rect hb o))) w0,
             Return (next_ref w))
        | Raise e => (set_objects (insert (next_ref w) o) w0, Raise e)
        end).
Proof.
  intros rd r. split; [|split; [|split; [|split]]].
  - intros w' self. rewrite new_GameObject_spec. fold rd.
    set (o := built GameObject_cls texture position scale rotation renderer u).
    set (w5 := set_objects (insert (next_ref w) o) (after_fresh w)).
    assert (Ho : objects w5 !! next_ref w = Some o) by (cbn; apply lookup_insert_eq).
    destruct (snd (renderer_hitbox (PyRef rd) (next_ref w) w5)) as [hb|e] eqn:Hh;
      [|discriminate].
    intros Heq. injection Heq as <- <-.
    destruct (hitbox_Return_at _ _ _ _ _ Ho Hh) as (ro & Hro & Hhb).
    exists (with_rect hb o), hb.
    set (wend := set_objects (insert (next_ref w) (with_rect hb o)) (after_fresh w)).
    assert (Ho' : objects wend !! next_ref w = Some (with_rect hb o))
      by (cbn; apply lookup_insert_eq).
    split; [exact Ho'|]. split; [reflexivity|]. split; [reflexivity|].
    rewrite (renderer_hitbox_at rd _ wend ro _ Hro Ho'). now rewrite <- Hhb.
  - intros w' self. destruct (updaters w !! r) as [uo|] eqn:Hu.
    + rewrite (new_Particle_spec _ _ _ _ _ _ _ _ uo Hu). fold rd r.
      set (o := built Particle_cls texture position scale rotation renderer (PyRef r)).
      set (w0 := set_updaters (insert r (bound_to (PyRef (next_ref w)) uo)) (after_fresh w)).
      set (w6 := set_objects (insert (next_ref w) o) w0).
      assert (Ho : objects w6 !! next_ref w = Some o) by (cbn; apply lookup_insert_eq).
      destruct (snd (renderer_hitbox (PyRef rd) (next_ref w) w6)) as [hb|e] eqn:Hh;
        [|discriminate].
      intros Heq. injection Heq as <- <-.
      destruct (hitbox_Return_at _ _ _ _ _ Ho Hh) as (ro & Hro & Hhb).
      exists (with_lifespan l (with_rect hb o)), hb.
      set (wend := set_objects (insert (next_ref w) (with_lifespan l (with_rect hb o))) w0).
      assert (Ho' : objects wend !! next_ref w = Some (with_lifespan l (with_rect hb o)))
        by (cbn; apply lookup_insert_eq).
      split; [exact Ho'|]. split; [reflexivity|]. split; [reflexivity|].
      rewrite (renderer_hitbox_at rd _ wend ro _ Hro Ho'). now rewrite <- Hhb.
    + rewrite (new_Particle_invalid _ _ _ _ _ _ _ _ Hu). discriminate.
  - intros spread Hst. split.
    + rewrite new_GameObject_spec. fold rd.
      erewrite renderer_hitbox_at; [| exact Hst | cbn; apply lookup_insert_eq].
      cbn. eauto.
    + intros [uo Hu]. rewrite (new_Particle_spec _ _ _ _ _ _ _ _ uo Hu). fold rd r.
      erewrite renderer_hitbox_at; [| exact Hst | cbn; apply lookup_insert_eq].
      cbn. eauto.
  - intros ro Hro o. rewrite new_GameObject_spec. fold rd o.
    erewrite renderer_hitbox_at; [| exact Hro | cbn; apply lookup_insert_eq].
    reflexivity.
  - intros ro uo Hro Hu o w0. rewrite (new_Particle_spec _ _ _ _ _ _ _ _ uo Hu).
    fold rd r o w0.
    erewrite renderer_hitbox_at; [| exact Hro | cbn; apply lookup_insert_eq].
    reflexivity.
Qed.

(** C3, as amended.  Setting the rotation, by the setter or at
    construction, stores [r % 360].  For an integer [r] that is
    [r mod 360], in [0, 360).  For a finite float [r] it lies in the
    closed interval [0, 360], and in [0, 360) when [r] is not negative;
    for an infinity or a NaN it is a NaN.  [-10] stores [350] and [370]
    stores [10], as integers and as floats. *)
Theorem rotation_stores_py_mod_360 self r w o texture position scale renderer u :
  objects w !! self = Some o ->
  GameObject_set_rotation self r w
    = (set_objects (insert self (with_rotation (py_mod_360 r) o)) w, Return tt) /\
  (exists w', bind (GameObject_set_rotation self r) (fun _ => GameObject_rotation self) w
              = (w', Return (py_mod_360 r))) /\
  (forall w' g,
      new_GameObject texture position scale r renderer u w = (w', Return g) ->
      GameObject_rotation g w' = (w', Return (py_mod_360 r))) /\
  (forall z, py_mod_360 (PyInt z) = PyInt (z mod 360) /\
             in_half_open_360 (py_mod_360 (PyInt z)) = true) /\
  (forall f, is_finite f = true ->
             in_closed_360 (py_mod_360 (PyFloat f)) = true /\
             ((0 <=? f)%float = true ->
              in_half_open_360 (py_mod_360 (PyFloat f)) = true)) /\
  (forall f, is_finite f = false -> py_mod_360 (PyFloat f) = PyFloat nan) /\
  py_mod_360 (PyInt (-10)) = PyInt 350 /\
  py_mod_360 (PyInt 370) = PyInt 10 /\
  py_mod_360 (PyFloat (-10)) = PyFloat 350 /\
  py_mod_360 (PyFloat 370) = PyFloat 10.
Proof.
  intros Ho. split; [|split; [|split; [|split; [|split; [|split]]]]].
  - unfold GameObject_set_rotation. now apply setattr_Some.
  - eexists. unfold GameObject_set_rotation, GameObject_rotation. exec.
    eapply getattr_Some; [cbn; apply lookup_insert_eq|reflexivity].
  - intros w' g. rewrite new_GameObject_spec.
    destruct (snd (renderer_hitbox _ _ _)) as [hb|e]; [|discriminate].
    intros Heq. injection Heq as <- <-.
    unfold GameObject_rotation. eapply getattr_Some; [cbn; apply lookup_insert_eq|].
    reflexivity.
  - intros z. split; [reflexivity|]. cbn.
    pose proof (Z.mod_pos_bound z 360 ltac:(lia)) as Hb.
    apply andb_true_intro. split; [apply Z.leb_le|apply Z.ltb_lt]; lia.
  - intros f Hf. cbn [py_mod_360 in_closed_360 in_half_open_360].
    exact (float_rem_360_finite f Hf).
  - intros f Hf. cbn [py_mod_360]. now rewrite (float_rem_360_not_finite f Hf).
  - repeat split.
Qed.
End Construction.

(** ** Renderer and updater are always there *)

Section Attachments.
Context `{Pygame}.

(** C4. After any sequence of operations from the import of the
    module, every instance in the store has a renderer that is not
    [None], and the default renderer is a [BasicRenderer]; this holds
    of any well-formed store and any operation.  Assigning [None]
    stores the default renderer, and so does constructing with
    [None]. *)
Theorem renderer_never_None :
  (forall cs self o,
      objects (run_all cs import_module) !! self = Some o ->
      exists r, _renderer o = Some (PyRef r)) /\
  (forall cs, renderers (run_all cs import_module) !! DEFAULT_RENDERER
              = Some BasicRenderer) /\
  (forall c w, wf w -> wf (fst (run c w))) /\
  (forall w self o,
      objects w !! self = Some o ->
      exists w' o',
        GameObject_set_renderer self PyNone w = (w', Return tt) /\
        objects w' !! self = Some o' /\
        _renderer o' = Some (PyRef DEFAULT_RENDERER)) /\
  (forall texture position scale rotation u w w' self,
      new_GameObject texture position scale rotation PyNone u w = (w', Return self) ->
      GameObject_renderer self w' = (w', Return (PyRef DEFAULT_RENDERER))) /\
  (forall texture position scale rotation u l w w' self,
      new_Particle texture position scale rotation PyNone u l w = (w', Return self) ->
      GameObject_renderer self w' = (w', Return (PyRef DEFAULT_RENDERER))).
Proof.
  split; [|split; [|split; [|split; [|split]]]].
  - intros cs self o Ho.
    pose proof (run_all_wf cs import_module wf_import_module) as [_ Hg].
    apply (Hg self o Ho).
  - intros cs.
    pose proof (run_all_wf cs import_module wf_import_module) as [(_ & Hr & _) _].
    exact Hr.
  - intros c w Hw. pose proof (run_preserves_wf c w Hw) as Hc.
    destruct (run c w) as [w' [[]|e]]; exact Hc.
  - intros w self o Ho. do 2 eexists. unfold GameObject_set_renderer.
    split; [apply (setattr_Some _ _ _ _ Ho)|].
    split; [cbn; apply lookup_insert_eq|reflexivity].
  - intros texture position scale rotation u w w' self.
    rewrite new_GameObject_spec.
    destruct (snd (renderer_hitbox _ _ _)) as [hb|e]; [|discriminate].
    intros Heq. injection Heq as <- <-.
    unfold GameObject_renderer. eapply getattr_Some; [cbn; apply lookup_insert_eq|].
    reflexivity.
  - intros texture position scale rotation u l w w' self.
    destruct (updaters w !! ref_or_default DEFAULT_PARTICLE_MOTION u) as [uo|] eqn:Hu.
    + rewrite (new_Particle_spec _ _ _ _ _ _ _ _ uo Hu).
      destruct (snd (renderer_hitbox _ _ _)) as [hb|e]; [|discriminate].
      intros Heq. injection Heq as <- <-.
      unfold GameObject_renderer. eapply getattr_Some; [cbn; apply lookup_insert_eq|].
      reflexivity.
    + rewrite (new_Particle_invalid _ _ _ _ _ _ _ _ Hu). discriminate.
Qed.

(** C8, as amended.  After any sequence of operations every particle
    in the store has an updater that is not [None].  A particle
    constructed without an updater gets the shared default updater of
    the module, not an instance of its own, and that updater is then
    bound to it; assigning an updater to a particle binds the updater
    to that particle, whatever it was bound to before. *)
Theorem particle_updater_bound :
  (forall cs self o,
      objects (run_all cs import_module) !! self = Some o ->
      cls o = Particle_cls ->
      exists u, updater o = Some (PyRef u)) /\
  (forall texture position scale rotation renderer l w w' self,
      new_Particle texture position scale rotation renderer PyNone l w
        = (w', Return self) ->
      getattr updater self w' = (w', Return (PyRef DEFAULT_PARTICLE_MOTION)) /\
      Updater_particle DEFAULT_PARTICLE_MOTION w' = (w', Return (PyRef self))) /\
  (forall texture position scale rotation renderer r l w w' self,
      new_Particle texture position scale rotation renderer (PyRef r) l w
        = (w', Return self) ->
      getattr updater self w' = (w', Return (PyRef r)) /\
      Updater_particle r w' = (w', Return (PyRef self))) /\
  (forall self u w o uo,
      objects w !! self = Some o ->
      updaters w !! ref_or_default DEFAULT_PARTICLE_MOTION u = Some uo ->
      exists w',
        Particle_set_updater self u w = (w', Return tt) /\
        getattr updater self w'
          = (w', Return (PyRef (ref_or_default DEFAULT_PARTICLE_MOTION u))) /\
        Updater_particle (ref_or_default DEFAULT_PARTICLE_MOTION u) w'
          = (w', Return (PyRef self))).
Proof.
  assert (Hnew : forall texture position scale rotation renderer u l w w' self,
    new_Particle texture position scale rotation renderer u l w = (w', Return self) ->
    getattr updater self w'
      = (w', Return (PyRef (ref_or_default DEFAULT_PARTICLE_MOTION u))) /\
    Updater_particle (ref_or_default DEFAULT_PARTICLE_MOTION u) w'
      = (w', Return (PyRef self))).
  { intros texture position scale rotation renderer u l w w' self.
    destruct (updaters w !! ref_or_default DEFAULT_PARTICLE_MOTION u) as [uo|] eqn:Hu.
    - rewrite (new_Particle_spec _ _ _ _ _ _ _ _ uo Hu).
      destruct (snd (renderer_hitbox _ _ _)) as [hb|e]; [|discriminate].
      intros Heq. injection Heq as <- <-. split.
      + eapply getattr_Some; [cbn; apply lookup_insert_eq|reflexivity].
      + unfold Updater_particle.
        erewrite bind_Return; [|eapply lookup_in_Some; cbn; apply lookup_insert_eq].
        now destruct uo.
    - rewrite (new_Particle_invalid _ _ _ _ _ _ _ _ Hu). discriminate. }
  split; [|split; [|split]].
  - intros cs self o Ho Hc.
    pose proof (run_all_wf cs import_module wf_import_module) as [_ Hg].
    apply (Hg self o Ho). exact Hc.
  - intros texture position scale rotation renderer l w w' self.
    apply (Hnew _ _ _ _ _ PyNone).
  - intros texture position scale rotation renderer r l w w' self.
    apply (Hnew _ _ _ _ _ (PyRef r)).
  - intros self u w o uo Ho Hu. eexists.
    unfold Particle_set_updater, Updater_set_particle. cbv zeta.
    split; [exec; reflexivity|]. split.
    + eapply getattr_Some; [cbn; apply lookup_insert_eq|reflexivity].
    + unfold Updater_particle.
      erewrite bind_Return; [|eapply lookup_in_Some; cbn; apply lookup_insert_eq].
      now destruct uo.
Qed.
End Attachments.

(** ** Further properties of rendering, updating and construction *)

Section Further.
Context `{Pygame}.

(** X1. What the basic renderer is given, it passes on.  When the
    scaled and rotated texture lies on the surface, calling the
    renderer makes one composite of that texture, its centre on the
    rounded position, with the [area] and the [special_flags] of the
    call, and changes nothing but that surface. *)
Theorem BasicRenderer_forwards_area_and_flags rr gameobject surface area special_flags
    w o img scale wd ht scaled rotation texture t position trect px py :
  renderers w !! rr = Some BasicRenderer ->
  objects w !! gameobject = Some o ->
  image o = Some img -> _scale o = Some scale ->
  py_round (x scale) = Return wd -> py_round (y scale) = Return ht ->
  transform_scale img (wd, ht) = Return scaled ->
  _rotation o = Some rotation ->
  transform_rotate scaled rotation = Return texture ->
  surfaces w !! surface = Some t ->
  _position o = Some position ->
  get_rect_center texture (x position, y position) = Return trect ->
  colliderect (mkRect 0 0 (fst (target_size t)) (snd (target_size t))) trect = true ->
  py_round (x position) = Return px -> py_round (y position) = Return py ->
  let w' := set_surfaces (insert surface
              (mkTarget _ (target_size t)
                 (mkBlit _ texture (px - get_width texture / 2, py - get_height texture / 2)
                    area special_flags :: blits t))) w in
  call_renderer (PyRef rr) gameobject surface area special_flags w = (w', Return tt) /\
  same_but_surfaces w w'.
Proof.
  intros Hr Ho Himg Hsc Hwd Hht Hscaled Hrot Htex Ht Hpos Hrect Hcol Hpx Hpy w'.
  split; [|repeat split].
  unfold call_renderer. erewrite bind_Return; [|eapply lookup_in_Some; exact Hr].
  eapply BasicRenderer_call_blits; eassumption.
Qed.


(** X2. A particle system is for particles only.
    [ParticleSystem.update] calls [update(dt, base_fps)] on its
    members, and [GameObject.update] takes no [base_fps]: updating a
    system that is not empty and whose members are plain [GameObject]s
    raises [TypeError], with the store as it was. *)
Theorem ParticleSystem_update_rejects_GameObject g dt base_fps w members :
  groups w !! g = Some members ->
  members <> ∅ ->
  (forall p, p ∈ members ->
             exists o, objects w !! p = Some o /\ cls o = GameObject_cls) ->
  ParticleSystem_update g dt base_fps w = (w, Raise TypeError).
Proof.
  intros Hg Hne Hall. unfold ParticleSystem_update.
  erewrite bind_Return; [|eapply lookup_in_Some; exact Hg].
  destruct (elements members) as [|p ps] eqn:He.
  - apply elements_empty_inv in He. apply leibniz_equiv in He. contradiction.
  - assert (Hp : p ∈ members) by (apply elem_of_elements; rewrite He; left).
    destruct (Hall p Hp) as (o & Ho & Hc).
    cbn [for_each]. unfold update.
    erewrite bind_Raise; [reflexivity|].
    erewrite bind_Return; [|eapply lookup_in_Some; exact Ho].
    rewrite Hc. reflexivity.
Qed.

(** X3. [Particle.update] with [base_fps = 0]: the base update of a
    living particle has run, and what it changed stays, when the
    division [dt / base_fps] raises [ZeroDivisionError]; the lifespan
    and the groups are as before. *)
Theorem Particle_update_zero_base_fps self dt w o l w1 :
  objects w !! self = Some o ->
  lifespan o = Some l ->
  (0 <? l)%float = true ->
  GameObject_update self dt w = (w1, Return tt) ->
  Particle_update self dt 0 w = (w1, Raise ZeroDivisionError) /\
  lifespan_of w1 self = Some l /\
  groups w1 = groups w.
Proof.
  intros Ho Hl Hpos Hbase.
  pose proof (GameObject_update_lifespan self dt w self) as Hl1.
  pose proof (GameObject_update_groups self dt w) as Hg1.
  rewrite Hbase in Hl1, Hg1. cbn [fst] in Hl1, Hg1.
  assert (Hlw : lifespan_of w self = Some l) by (unfold lifespan_of; now rewrite Ho).
  rewrite Hlw in Hl1. split; [|split; [exact Hl1|exact Hg1]].
  unfold lifespan_of in Hl1.
  destruct (objects w1 !! self) as [o1|] eqn:Ho1; [|discriminate].
  unfold Particle_update.
  erewrite bind_Return; [|eapply getattr_Some; [exact Ho|exact Hl]].
  rewrite Hpos.
  erewrite bind_Return; [|exact Hbase].
  erewrite bind_Return; [|eapply getattr_Some; [exact Ho1|exact Hl1]].
  reflexivity.
Qed.

(** X4. A kinematic updater that is bound to no particle (as the
    default one is when the module is imported) raises
    [AttributeError] when called, with the store as it was, and
    [GameObject.update] lets that error out: only [TypeError] is
    caught. *)
Theorem unbound_updater_raises_AttributeError u v a dt w :
  updaters w !! u = Some (BasicParticleUpdater PyNone v a) ->
  BasicParticleUpdater_call u dt w = (w, Raise AttributeError) /\
  call_updater (PyRef u) dt w = (w, Raise AttributeError) /\
  forall self o,
    objects w !! self = Some o -> updater o = Some (PyRef u) ->
    GameObject_update self dt w = (w, Raise AttributeError).
Proof.
  intros Hu.
  assert (Hc : BasicParticleUpdater_call u dt w = (w, Raise AttributeError)).
  { unfold BasicParticleUpdater_call, Updater_particle.
    rewrite !bind_bind.
    erewrite bind_Return; [|eapply lookup_in_Some; exact Hu].
    reflexivity. }
  assert (Hd : call_updater (PyRef u) dt w = (w, Raise AttributeError)).
  { unfold call_updater. erewrite bind_Return; [|eapply lookup_in_Some; exact Hu].
    exact Hc. }
  split; [exact Hc|]. split; [exact Hd|].
  intros self o Ho Hup. unfold GameObject_update, try_except.
  erewrite bind_Return; [|eapply getattr_Some; [exact Ho|exact Hup]].
  rewrite Hd. reflexivity.
Qed.

Lemma BasicParticleUpdater_call_step u dt w p o pos vel acc :
  updaters w !! u = Some (BasicParticleUpdater (PyRef p) vel acc) ->
  objects w !! p = Some o ->
  _position o = Some pos ->
  BasicParticleUpdater_call u dt w
  = (set_updaters (insert u (BasicParticleUpdater (PyRef p) (add vel (mul acc dt)) acc))
       (set_objects (insert p (with_position (add pos (mul vel dt)) o)) w),
     Return tt).
Proof.
  intros Hu Ho Hpos.
  unfold BasicParticleUpdater_call, Updater_particle, BasicParticleUpdater_velocity,
    BasicParticleUpdater_accel, BasicParticleUpdater_set_velocity,
    GameObject_position, GameObject_set_position.
  exec. cbv iota. exec. cbv iota. exec. cbv iota. reflexivity.
Qed.

(** X5. The base update moves the particle the updater is bound to,
    which need not be the instance that is updated: when the updater
    of [p1] is bound to [p2], updating [p1] moves [p2] by
    [velocity * dt] and leaves [p1] as it was. *)
Theorem update_moves_the_bound_particle p1 p2 u dt w o1 o2 pos vel acc :
  objects w !! p1 = Some o1 ->
  updater o1 = Some (PyRef u) ->
  updaters w !! u = Some (BasicParticleUpdater (PyRef p2) vel acc) ->
  objects w !! p2 = Some o2 ->
  _position o2 = Some pos ->
  let w' := set_updaters (insert u (BasicParticleUpdater (PyRef p2) (add vel (mul acc dt)) acc))
              (set_objects (insert p2 (with_position (add pos (mul vel dt)) o2)) w) in
  GameObject_update p1 dt w = (w', Return tt) /\
  GameObject_position p2 w' = (w', Return (add pos (mul vel dt))) /\
  (p1 <> p2 -> objects w' !! p1 = Some o1).
Proof.
  intros Ho1 Hup Hu Ho2 Hpos w'. split; [|split].
  - unfold GameObject_update, try_except.
    erewrite bind_Return; [|eapply getattr_Some; [exact Ho1|exact Hup]].
    unfold call_updater.
    erewrite bind_Return; [|eapply lookup_in_Some; exact Hu]. cbv beta iota.
    rewrite (BasicParticleUpdater_call_step u dt w p2 o2 pos vel acc Hu Ho2 Hpos).
    reflexivity.
  - unfold GameObject_position. eapply getattr_Some; [cbn; apply lookup_insert_eq|].
    reflexivity.
  - intros Hne. cbn. rewrite lookup_insert_ne by congruence. exact Ho1.
Qed.

(** X6. A scale that cannot be rounded stops the construction: with
    the basic renderer, the hitbox rounds the scale, so a [GameObject]
    or a [Particle] whose horizontal scale is a NaN is refused with
    [ValueError], and one whose scale is infinite with
    [OverflowError]. *)
Theorem construction_rejects_unroundable_scale texture position scale rotation
    renderer u l w e :
  renderers w !! ref_or_default DEFAULT_RENDERER renderer = Some BasicRenderer ->
  py_round (x scale) = Raise e ->
  snd (new_GameObject texture position scale rotation renderer u w) = Raise e /\
  (is_Some (updaters w !! ref_or_default DEFAULT_PARTICLE_MOTION u) ->
   snd (new_Particle texture position scale rotation renderer u l w) = Raise e) /\
  py_round nan = Raise ValueError /\
  py_round infinity = Raise OverflowError /\
  py_round neg_infinity = Raise OverflowError.
Proof.
  intros Hr He. split; [|split; [|repeat split]].
  - rewrite new_GameObject_spec.
    erewrite renderer_hitbox_at; [| exact Hr | cbn; apply lookup_insert_eq].
    cbn [snd hitbox_of built image _scale attr_result rbind]. rewrite He. reflexivity.
  - intros [uo Hu]. rewrite (new_Particle_spec _ _ _ _ _ _ _ _ uo Hu).
    erewrite renderer_hitbox_at; [| exact Hr | cbn; apply lookup_insert_eq].
    cbn [snd hitbox_of built image _scale attr_result rbind]. rewrite He. reflexivity.
Qed.


Lemma same_but_surfaces_blit w0 surface source dest area flags :
  preserves (same_but_surfaces w0) (Surface_blit surface source dest area flags).
Proof.
  intros w Hw. unfold Surface_blit, bind, lookup_in.
  destruct (surfaces w !! surface); exact Hw.
Qed.

Lemma same_but_surfaces_draw w0 self surface area flags :
  preserves (same_but_surfaces w0) (draw self surface area flags).
Proof.
  unfold draw, Particle_draw, GameObject_draw, GameObject_renderer, call_renderer,
    BasicRenderer_call, StackRenderer_call, GameObject_scale, GameObject_rotation,
    GameObject_position, Surface_get_rect.
  pres; apply same_but_surfaces_blit.
Qed.

(** X7. Drawing changes surfaces only: after [draw] on an instance
    or on a particle system, whether it returns or raises, the
    instances, the updaters, the renderers and the groups are as
    before. *)
Theorem draw_changes_surfaces_only self surface area flags w :
  same_but_surfaces w (fst (draw self surface area flags w)) /\
  same_but_surfaces w (fst (ParticleSystem_draw self surface area flags w)).
Proof.
  assert (H0 : same_but_surfaces w w) by (repeat split).
  split.
  - pose proof (same_but_surfaces_draw w self surface area flags w H0) as Hp.
    destruct (draw self surface area flags w) as [w' [[]|e]]; exact Hp.
  - assert (Hs : preserves (same_but_surfaces w)
                   (ParticleSystem_draw self surface area flags)).
    { unfold ParticleSystem_draw. pres. apply same_but_surfaces_draw. }
    specialize (Hs w H0).
    destruct (ParticleSystem_draw self surface area flags w) as [w' [[]|e]]; exact Hs.
Qed.

Lemma same_display_setattr w0 q upd : preserves (same_display w0) (setattr q upd).
Proof.
  intros w Hw. unfold setattr, bind, lookup_in. destruct (objects w !! q); exact Hw.
Qed.

Lemma same_display_set_velocity w0 u v :
  preserves (same_display w0) (BasicParticleUpdater_set_velocity u v).
Proof.
  intros w Hw. unfold BasicParticleUpdater_set_velocity, bind, lookup_in.
  destruct (updaters w !! u) as [[]|]; exact Hw.
Qed.

Lemma same_display_update w0 self dt fps :
  preserves (same_display w0) (update self dt fps).
Proof.
  assert (Hk : forall q, preserves (same_display w0) (Sprite_kill q))
    by (intros q w Hw; exact Hw).
  unfold update, Particle_update, GameObject_update, call_updater,
    BasicParticleUpdater_call, ScriptedUpdater_call, Updater_particle,
    BasicParticleUpdater_velocity, BasicParticleUpdater_accel,
    GameObject_position, GameObject_set_position.
  pres; first [apply same_display_setattr | apply same_display_set_velocity | apply Hk].
Qed.

(** X8. Updating draws nothing: after [update] on an instance or on
    a particle system, whether it returns or raises, every surface
    and every renderer is as before, and no object was created. *)
Theorem update_keeps_the_display self dt fps base_fps w :
  same_display w (fst (update self dt fps w)) /\
  same_display w (fst (ParticleSystem_update self dt base_fps w)).
Proof.
  assert (H0 : same_display w w) by (repeat split).
  split.
  - pose proof (same_display_update w self dt fps w H0) as Hp.
    destruct (update self dt fps w) as [w' [[]|e]]; exact Hp.
  - assert (Hs : preserves (same_display w) (ParticleSystem_update self dt base_fps)).
    { unfold ParticleSystem_update. pres. apply same_display_update. }
    specialize (Hs w H0).
    destruct (ParticleSystem_update self dt base_fps w) as [w' [[]|e]]; exact Hs.
Qed.

Lemma bind_ret_tt (c : M unit) w : bind c (fun _ => ret tt) w = c w.
Proof. unfold bind, ret. destruct (c w) as [w' [[]|e]]; reflexivity. Qed.

(** X9. A particle system with no member ignores update and draw; with
    one member, its update and its draw are those of the member, with
    the arguments of the call. *)
Theorem ParticleSystem_of_none_and_of_one g dt base_fps surface area flags w :
  (groups w !! g = Some ∅ ->
   ParticleSystem_update g dt base_fps w = (w, Return tt) /\
   ParticleSystem_draw g surface area flags w = (w, Return tt)) /\
  (forall p, groups w !! g = Some {[ p ]} ->
   ParticleSystem_update g dt base_fps w = update p dt (Some base_fps) w /\
   ParticleSystem_draw g surface area flags w = draw p surface area flags w).
Proof.
  unfold ParticleSystem_update, ParticleSystem_draw. split.
  - intros Hg. rewrite !(bind_Return _ _ _ _ _ (lookup_in_Some groups _ _ _ Hg)).
    rewrite elements_empty. split; reflexivity.
  - intros p Hg. rewrite !(bind_Return _ _ _ _ _ (lookup_in_Some groups _ _ _ Hg)).
    rewrite elements_singleton. cbn [for_each]. split; apply bind_ret_tt.
Qed.

(** X10. Assigning to the rotation the rotation that is stored applies
    [% 360] once more.  That changes nothing for an integer, but the
    float [360.0], which [-2^-70] is stored as, becomes [0.0]. *)
Theorem rotation_reassignment self r w o :
  objects w !! self = Some o ->
  (exists w',
     bind (GameObject_set_rotation self r) (fun _ =>
     bind (GameObject_rotation self) (fun r' =>
     bind (GameObject_set_rotation self r') (fun _ =>
     GameObject_rotation self))) w = (w', Return (py_mod_360 (py_mod_360 r)))) /\
  (forall z, py_mod_360 (py_mod_360 (PyInt z)) = py_mod_360 (PyInt z)) /\
  py_mod_360 (PyFloat (-0x1p-70)) = PyFloat 360 /\
  py_mod_360 (py_mod_360 (PyFloat (-0x1p-70))) = PyFloat 0.
Proof.
  intros Ho. split; [|split; [|split; reflexivity]].
  - eexists. unfold GameObject_set_rotation, GameObject_rotation. exec.
    eapply getattr_Some; [cbn; apply lookup_insert_eq|reflexivity].
  - intros z. cbn [py_mod_360]. now rewrite Z.mod_mod by lia.
Qed.

(** X11. The velocity and the acceleration of a kinematic updater:
    each setter stores its value, which the getter then returns, and
    leaves the other one and the bound particle as they were. *)
Theorem updater_velocity_and_accel u p v a v' a' w :
  updaters w !! u = Some (BasicParticleUpdater p v a) ->
  let w1 := set_updaters (insert u (BasicParticleUpdater p v' a)) w in
  let w2 := set_updaters (insert u (BasicParticleUpdater p v a')) w in
  BasicParticleUpdater_set_velocity u v' w = (w1, Return tt) /\
  BasicParticleUpdater_velocity u w1 = (w1, Return v') /\
  BasicParticleUpdater_accel u w1 = (w1, Return a) /\
  Updater_particle u w1 = (w1, Return p) /\
  BasicParticleUpdater_set_accel u a' w = (w2, Return tt) /\
  BasicParticleUpdater_accel u w2 = (w2, Return a') /\
  BasicParticleUpdater_velocity u w2 = (w2, Return v) /\
  Updater_particle u w2 = (w2, Return p).
Proof.
  intros Hu w1 w2.
  assert (H1 : updaters w1 !! u = Some (BasicParticleUpdater p v' a))
    by (cbn; apply lookup_insert_eq).
  assert (H2 : updaters w2 !! u = Some (BasicParticleUpdater p v a'))
    by (cbn; apply lookup_insert_eq).
  unfold BasicParticleUpdater_set_velocity, BasicParticleUpdater_set_accel,
    BasicParticleUpdater_velocity, BasicParticleUpdater_accel, Updater_particle.
  rewrite !(bind_Return _ _ _ _ _ (lookup_in_Some updaters _ _ _ Hu)).
  rewrite !(bind_Return _ _ _ _ _ (lookup_in_Some updaters _ _ _ H1)).
  rewrite !(bind_Return _ _ _ _ _ (lookup_in_Some updaters _ _ _ H2)).
  repeat split.
Qed.

Lemma rect_kept_setattr r o q upd :
  (forall o', rect (upd o') = rect o') ->
  preserves (obj_inv r (fun o' => rect o' = rect o)) (setattr q upd).
Proof. intros Hupd. apply frame_setattr. intros o' Ho'. now rewrite Hupd. Qed.

Lemma rect_kept_update r o self dt fps :
  preserves (obj_inv r (fun o' => rect o' = rect o)) (update self dt fps).
Proof.
  unfold update, Particle_update.
  pres; first [ apply frame_GameObject_update; intros ? ? Hg; exact Hg
              | apply frame_Sprite_kill
              | apply rect_kept_setattr; reflexivity ].
Qed.

(** X12. The [rect] of an instance is computed when it is constructed,
    and by nothing else: assigning a position, a scale or a rotation,
    and updating, leave the [rect] of every instance as it was, so it
    no longer is the hitbox of an instance that has moved. *)
Theorem rect_is_computed_at_construction_only r o w self dt fps p s rot :
  objects w !! r = Some o ->
  let rect_kept (c : M unit) :=
    exists o', objects (fst (c w)) !! r = Some o' /\ rect o' = rect o in
  rect_kept (GameObject_set_position self p) /\
  rect_kept (GameObject_set_scale self s) /\
  rect_kept (GameObject_set_rotation self rot) /\
  rect_kept (update self dt fps).
Proof.
  intros Ho rect_kept.
  assert (H0 : obj_inv r (fun o' => rect o' = rect o) w) by (exists o; auto).
  assert (Hk : forall c, preserves (obj_inv r (fun o' => rect o' = rect o)) c ->
                         rect_kept c).
  { intros c Hc. specialize (Hc w H0). unfold rect_kept.
    destruct (c w) as [w' [[]|e]]; exact Hc. }
  repeat split; apply Hk.
  - apply rect_kept_setattr; reflexivity.
  - apply rect_kept_setattr; reflexivity.
  - apply rect_kept_setattr; reflexivity.
  - apply rect_kept_update.
Qed.


(** X13. The basic renderer draws an object when its hitbox meets the
    surface, and not otherwise: with [hb] the hitbox the renderer
    returns for the object, a call of the renderer makes one composite
    of the texture that has [hb] as its rectangle when [hb] and the
    rectangle of the surface collide, and returns with the store as it
    was when they do not. *)
Theorem drawn_when_hitbox_meets_surface rr gameobject surface area special_flags
    w o t hb position px py :
  renderers w !! rr = Some BasicRenderer ->
  objects w !! gameobject = Some o ->
  surfaces w !! surface = Some t ->
  renderer_hitbox (PyRef rr) gameobject w = (w, Return hb) ->
  _position o = Some position ->
  py_round (x position) = Return px -> py_round (y position) = Return py ->
  exists texture,
    get_rect_center texture (x position, y position) = Return hb /\
    call_renderer (PyRef rr) gameobject surface area special_flags w
    = if colliderect (mkRect 0 0 (fst (target_size t)) (snd (target_size t))) hb
      then (set_surfaces (insert surface
              (mkTarget _ (target_size t)
                 (mkBlit _ texture
                    (px - get_width texture / 2, py - get_height texture / 2)
                    area special_flags :: blits t))) w, Return tt)
      else (w, Return tt).
Proof.
  intros Hr Ho Ht Hhb Hpos Hpx Hpy.
  rewrite (renderer_hitbox_at rr gameobject w BasicRenderer o Hr Ho) in Hhb.
  injection Hhb as Hhb. unfold hitbox_of in Hhb. rewrite Hpos in Hhb.
  destruct (image o) as [img|] eqn:Himg; [|discriminate].
  destruct (_scale o) as [scale|] eqn:Hsc; [|discriminate].
  cbn [attr_result rbind] in Hhb.
  destruct (py_round (x scale)) as [wd|] eqn:Hwd; [|discriminate].
  destruct (py_round (y scale)) as [ht|] eqn:Hht; [|discriminate].
  cbn [rbind] in Hhb.
  destruct (transform_scale img (wd, ht)) as [scaled|] eqn:Hscaled; [|discriminate].
  destruct (_rotation o) as [rotation|] eqn:Hrot; [|discriminate].
  cbn [attr_result rbind] in Hhb.
  destruct (transform_rotate scaled rotation) as [texture|] eqn:Htex; [|discriminate].
  cbn [attr_result rbind] in Hhb.
  exists texture. split; [exact Hhb|].
  unfold call_renderer. erewrite bind_Return; [|eapply lookup_in_Some; exact Hr].
  cbv beta iota.
  destruct (colliderect _ hb) eqn:Hcol.
  - eapply BasicRenderer_call_blits; eassumption.
  - unfold BasicRenderer_call, GameObject_scale, GameObject_rotation,
      GameObject_position, Surface_get_rect.
    exec. rewrite Hwd. exec. rewrite Hht. exec. rewrite Hscaled. exec.
    rewrite Htex. exec. rewrite Hhb. exec. now rewrite Hcol.
Qed.

End Further.

(** ** The example scenes *)

Lemma world_object_scene : world_object = fst (scene_object import_module).
Proof. reflexivity. Qed.

Lemma world_stack_scene : world_stack = fst (scene_stack import_module).
Proof. reflexivity. Qed.

Lemma world_off_screen_scene : world_off_screen = fst (scene_off_screen import_module).
Proof. reflexivity. Qed.

Lemma world_alive_scene : world_alive = fst (scene_particle 0.5 import_module).
Proof. reflexivity. Qed.

Lemma world_dead_scene : world_dead = fst (scene_particle 0 import_module).
Proof. reflexivity. Qed.

Lemma world_immortal_scene : world_immortal = fst (scene_particle (-1) import_module).
Proof. reflexivity. Qed.

(** C1 at work: a particle of lifespan [0.5] updated with [dt = 60] at
    60 frames per second dies; a dead one ignores update and draw; an
    immortal one is updated and keeps its lifespan. *)
Lemma particle_lifecycle_witness :
  (exists w2, Particle_update 4%nat 60 60 world_alive = (w2, Return tt) /\
     lifespan_of w2 4%nat = Some 0%float /\ in_no_group w2 4%nat) /\
  (Particle_update 4%nat 1 60 world_dead = (world_dead, Return tt) /\
   (forall surface area flags,
       Particle_draw 4%nat surface area flags world_dead = (world_dead, Return tt)) /\
   lifespan_of (run_all [Update 4%nat 1 (Some 60); Draw 4%nat 9%nat None 0;
                         SystemUpdate 2%nat 1 60] world_dead) 4%nat = Some 0%float) /\
  (Particle_update 4%nat 1 60 world_immortal = GameObject_update 4%nat 1 world_immortal /\
   lifespan_of (fst (Particle_update 4%nat 1 60 world_immortal)) 4%nat = Some (-1)%float).
Proof.
  split; [|split].
  - destruct (particle_lifecycle (H:=SizeRaster) 4%nat 60 60 world_alive _ 0.5%float
                eq_refl eq_refl) as (Ha & _ & _).
    exact (Ha eq_refl _ 1%float eq_refl eq_refl).
  - destruct (particle_lifecycle (H:=SizeRaster) 4%nat 1 60 world_dead _ 0%float
                eq_refl eq_refl) as (_ & Hd & _).
    destruct (Hd eq_refl) as (Hu & Hdr & Hcs).
    split; [exact Hu|]. split; [exact Hdr|].
    apply Hcs. repeat constructor.
  - destruct (particle_lifecycle (H:=SizeRaster) 4%nat 1 60 world_immortal _ (-1)%float
                eq_refl eq_refl) as (_ & _ & Hi).
    exact (Hi eq_refl).
Defined.

(** C2 at work: the updater of the scene, with velocity [(1, 2)] and
    acceleration [(1, 0)], moves its particle from [(5, 5)] to [(6, 7)]
    in one step of [dt = 1] and then has the velocity [(2, 2)]. *)
Lemma kinematic_step_witness :
  exists w',
    BasicParticleUpdater_call 3%nat 1 world_alive = (w', Return tt) /\
    GameObject_position 4%nat w' = (w', Return (mkVector2 6 7)) /\
    BasicParticleUpdater_velocity 3%nat w' = (w', Return (mkVector2 2 2)).
Proof.
  destruct (kinematic_step_position_then_velocity (H:=SizeRaster) 3%nat 1 world_alive
              4%nat _ at_5_5 (mkVector2 1 2) (mkVector2 1 0) eq_refl eq_refl eq_refl)
    as (Hc & Hp & Hv & _).
  eexists. split; [exact Hc|]. split; [exact Hp|exact Hv].
Defined.

(** C3 at work: the rotation [-10] set on the object of the scene, and
    the range of the rotation [-2^-70]. *)
Lemma rotation_stores_py_mod_360_witness :
  (exists w',
    bind (GameObject_set_rotation 3%nat (PyInt (-10))) (fun _ => GameObject_rotation 3%nat)
      world_object = (w', Return (PyInt 350))) /\
  in_closed_360 (py_mod_360 (PyFloat (-0x1p-70))) = true.
Proof.
  destruct (rotation_stores_py_mod_360 (H:=SizeRaster) 3%nat (PyInt (-10)) world_object _
              square at_5_5 ten_by_ten PyNone PyNone eq_refl) as (_ & Hs & _ & _ & Hf & _).
  split; [exact Hs|]. exact (proj1 (Hf (-0x1p-70)%float eq_refl)).
Defined.

(** C3 as stated fails for floats: the rotation [-2^-70], set or given
    at construction, is stored as [360.0], which is not below 360; the
    rotations NaN and infinity are stored as NaN. *)
Lemma rotation_float_stores_360 :
  snd (scene_rotation_set (PyFloat (-0x1p-70)) import_module) = Return (PyFloat 360) /\
  snd (scene_rotation_built (PyFloat (-0x1p-70)) import_module) = Return (PyFloat 360) /\
  in_half_open_360 (PyFloat 360) = false /\
  py_mod_360 (PyFloat infinity) = PyFloat nan /\
  in_half_open_360 (PyFloat nan) = false.
Proof. repeat split. Qed.

(** C5 at work: the object of the scene has no updater, and its update
    returns with the store as it was. *)
Lemma GameObject_update_swallows_TypeError_witness :
  call_updater PyNone 1 world_object = (world_object, Raise TypeError) /\
  GameObject_update 3%nat 1 world_object = (world_object, Return tt).
Proof.
  destruct (GameObject_update_swallows_TypeError (H:=SizeRaster) 3%nat 1 world_object _
              PyNone eq_refl eq_refl) as (Hm & _).
  exact (Hm eq_refl).
Defined.

(** C5 as stated fails: the updater of the object moves it from
    [(5, 5)] to [(99, 99)] and then raises a [TypeError]; the update
    returns as if nothing had happened, and the object has moved. *)
Lemma update_keeps_changes_before_TypeError :
  snd (scene_scripted_update import_module) = Return (at_5_5, mkVector2 99 99) /\
  snd (call_updater (PyRef 4%nat) 1 world_scripted) = Raise TypeError /\
  snd (GameObject_update 3%nat 1 world_scripted) = Return tt.
Proof. repeat split. Qed.

(** C6 at work: the object that was given a [StackRenderer]. *)
Lemma stack_renderer_raises_and_propagates_witness :
  renderer_hitbox (PyRef 4%nat) 3%nat world_stack = (world_stack, Raise NotImplementedError) /\
  GameObject_draw 3%nat 2%nat None 0 world_stack = (world_stack, Raise NotImplementedError).
Proof.
  destruct (stack_renderer_raises_and_propagates (H:=SizeRaster) 3%nat 2%nat None 0
              world_stack _ 4%nat 1 eq_refl eq_refl eq_refl) as (_ & _ & _ & Hh & Hd).
  split; [exact Hh|exact Hd].
Defined.

(** C9 at work: the object at [(500, 500)] is not drawn on the surface
    of 100 by 100. *)
Lemma BasicRenderer_culls_off_screen_witness :
  GameObject_draw 3%nat 2%nat None 0 world_off_screen = (world_off_screen, Return tt) /\
  surfaces (fst (GameObject_draw 3%nat 2%nat None 0 world_off_screen)) !! 2%nat
    = Some (mkTarget SizeRaster (100, 100) []).
Proof.
  destruct (BasicRenderer_culls_off_screen (H:=SizeRaster) 3%nat 2%nat None 0
              world_off_screen _ square ten_by_ten 10 10 square (PyInt 0) square
              (mkTarget SizeRaster (100, 100) []) (mkVector2 500 500)
              (mkRect 495 495 10 10) 1%nat
              eq_refl eq_refl eq_refl eq_refl eq_refl eq_refl eq_refl eq_refl eq_refl
              eq_refl eq_refl eq_refl eq_refl eq_refl) as (_ & Hd & Hs).
  split; [exact Hd|exact Hs].
Defined.

(** C10 at work: built with the default renderer, a [GameObject] and a
    [Particle] of 10 by 10 at [(5, 5)] have the rectangle at [(0, 0)] of
    that size as their [rect]; with the [StackRenderer] of the scene,
    neither can be constructed. *)
Lemma construction_computes_hitbox_witness :
  (exists w' o,
     new_GameObject (H:=SizeRaster) square at_5_5 ten_by_ten (PyInt 0) PyNone PyNone
       import_module = (w', Return 2%nat) /\
     objects w' !! 2%nat = Some o /\ rect o = Some (mkRect 0 0 10 10)) /\
  (exists w' o,
     new_Particle (H:=SizeRaster) square at_5_5 ten_by_ten (PyInt 0) PyNone PyNone 10
       import_module = (w', Return 2%nat) /\
     objects w' !! 2%nat = Some o /\ rect o = Some (mkRect 0 0 10 10) /\
     lifespan o = Some 10%float) /\
  (exists w', new_GameObject (H:=SizeRaster) square at_5_5 ten_by_ten (PyInt 0)
                (PyRef 2%nat) PyNone world_stack_renderer
              = (w', Raise NotImplementedError)) /\
  (exists w', new_Particle (H:=SizeRaster) square at_5_5 ten_by_ten (PyInt 0)
                (PyRef 2%nat) PyNone 10 world_stack_renderer
              = (w', Raise NotImplementedError)).
Proof.
  destruct (construction_computes_hitbox (H:=SizeRaster) square at_5_5 ten_by_ten (PyInt 0)
              PyNone PyNone 10 import_module) as (_ & _ & _ & Hg & Hp).
  destruct (construction_computes_hitbox (H:=SizeRaster) square at_5_5 ten_by_ten (PyInt 0)
              (PyRef 2%nat) PyNone 10 world_stack_renderer) as (_ & _ & Hst & _).
  destruct (Hst 1 eq_refl) as (Hsg & Hsp).
  split; [|split; [|split]].
  - eexists. eexists. split; [exact (Hg BasicRenderer eq_refl)|].
    split; reflexivity.
  - eexists. eexists. split; [exact (Hp BasicRenderer _ eq_refl eq_refl)|].
    split; [reflexivity|]. split; reflexivity.
  - exact Hsg.
  - apply Hsp. eexists. reflexivity.
Defined.

(** C4 at work: the renderer of the object of the scene is set to
    [None], and is then the default renderer. *)
Lemma renderer_never_None_witness :
  exists w' o',
    GameObject_set_renderer 3%nat PyNone world_stack = (w', Return tt) /\
    objects w' !! 3%nat = Some o' /\
    _renderer o' = Some (PyRef DEFAULT_RENDERER).
Proof.
  destruct (renderer_never_None (H:=SizeRaster)) as (_ & _ & _ & Hs & _).
  exact (Hs world_stack 3%nat _ eq_refl).
Defined.

(** C8 at work: the particle of the scene takes over the updater that
    is bound to it already, and the default updater when given [None]. *)
Lemma particle_updater_bound_witness :
  exists w',
    Particle_set_updater 4%nat PyNone world_alive = (w', Return tt) /\
    getattr updater 4%nat w' = (w', Return (PyRef DEFAULT_PARTICLE_MOTION)) /\
    Updater_particle DEFAULT_PARTICLE_MOTION w' = (w', Return (PyRef 4%nat)).
Proof.
  destruct (particle_updater_bound (H:=SizeRaster)) as (_ & _ & _ & Hs).
  exact (Hs 4%nat PyNone world_alive _ _ eq_refl eq_refl).
Defined.

(** C8 as stated fails: two particles constructed without an updater
    (references 2 and 3) hold one and the same updater, the default one
    of the module (reference 0), which existed before either of them
    and is bound to the second particle only. *)
Lemma default_updater_is_shared :
  snd (scene_two_particles import_module)
    = Return (2%nat, 3%nat, PyRef DEFAULT_PARTICLE_MOTION, PyRef DEFAULT_PARTICLE_MOTION,
              PyRef 3%nat) /\
  DEFAULT_PARTICLE_MOTION = 0%nat /\
  is_Some (updaters (import_module (H:=SizeRaster)) !! DEFAULT_PARTICLE_MOTION).
Proof.
  split; [reflexivity|]. split; [reflexivity|]. eexists. reflexivity.
Qed.

(** X1 at work: the object of the scene, drawn by the default renderer
    with a clip area and a blend flag. *)
Lemma BasicRenderer_forwards_area_and_flags_witness :
  surfaces (fst (call_renderer (PyRef 1%nat) 3%nat 2%nat (Some (mkRect 0 0 5 5)) 1
                   world_object)) !! 2%nat
  = Some (mkTarget SizeRaster (100, 100)
            [mkBlit SizeRaster square (0, 0) (Some (mkRect 0 0 5 5)) 1]).
Proof.
  destruct (BasicRenderer_forwards_area_and_flags (H:=SizeRaster) 1%nat 3%nat 2%nat
              (Some (mkRect 0 0 5 5)) 1 world_object _ square ten_by_ten 10 10 square
              (PyInt 0) square (mkTarget SizeRaster (100, 100) []) at_5_5
              (mkRect 0 0 10 10) 5 5
              eq_refl eq_refl eq_refl eq_refl eq_refl eq_refl eq_refl eq_refl eq_refl
              eq_refl eq_refl eq_refl eq_refl eq_refl eq_refl) as (Hc & _).
  rewrite Hc. reflexivity.
Defined.

(** X2 at work: the system that holds the object of the scene. *)
Lemma ParticleSystem_update_rejects_GameObject_witness :
  ParticleSystem_update 4%nat 1 60 world_grouped_object
  = (world_grouped_object, Raise TypeError).
Proof.
  apply (ParticleSystem_update_rejects_GameObject (H:=SizeRaster) 4%nat 1 60
           world_grouped_object {[ 3%nat ]}).
  - reflexivity.
  - apply non_empty_singleton_L.
  - intros p Hp. apply elem_of_singleton in Hp. subst p.
    eexists. split; reflexivity.
Defined.

(** X3 at work: the particle of the scene has moved to [(6, 7)] when
    the division fails, and has its lifespan of [0.5]. *)
Lemma Particle_update_zero_base_fps_witness :
  exists w1,
    Particle_update 4%nat 1 0 world_alive = (w1, Raise ZeroDivisionError) /\
    lifespan_of w1 4%nat = Some 0.5%float /\
    GameObject_position 4%nat w1 = (w1, Return (mkVector2 6 7)).
Proof.
  destruct (Particle_update_zero_base_fps (H:=SizeRaster) 4%nat 1 world_alive _ 0.5%float _
              eq_refl eq_refl eq_refl eq_refl) as (Hu & Hl & _).
  eexists. split; [exact Hu|]. split; [exact Hl|reflexivity].
Defined.

(** X4 at work: the default updater, right after the import. *)
Lemma unbound_updater_raises_AttributeError_witness :
  call_updater (H:=SizeRaster) (PyRef DEFAULT_PARTICLE_MOTION) 1 import_module
  = (import_module, Raise AttributeError).
Proof.
  destruct (unbound_updater_raises_AttributeError (H:=SizeRaster) DEFAULT_PARTICLE_MOTION
              (mkVector2 0 0) (mkVector2 0 0) 1 import_module eq_refl) as (_ & Hc & _).
  exact Hc.
Defined.

(** X5 at work: two particles share the default updater, which is bound
    to the second; the base update of the first moves the second, and
    so does the update of the first. *)
Lemma update_moves_the_bound_particle_witness :
  exists w',
    GameObject_update 2%nat 1 world_shared = (w', Return tt) /\
    GameObject_position 3%nat w' = (w', Return (mkVector2 6 5)) /\
    GameObject_position 2%nat w' = (w', Return at_5_5) /\
    snd (scene_shared_update import_module) = Return (at_5_5, mkVector2 6 5).
Proof.
  destruct (update_moves_the_bound_particle (H:=SizeRaster) 2%nat 3%nat
              DEFAULT_PARTICLE_MOTION 1 world_shared _ _ at_5_5 (mkVector2 1 0)
              (mkVector2 0 0) eq_refl eq_refl eq_refl eq_refl eq_refl) as (Hu & Hp & _).
  eexists. split; [exact Hu|]. split; [exact Hp|]. split; reflexivity.
Defined.

(** X6 at work: a scale of NaN and one of infinity. *)
Lemma construction_rejects_unroundable_scale_witness :
  snd (new_GameObject (H:=SizeRaster) square at_5_5 (mkVector2 nan 10) (PyInt 0)
         PyNone PyNone import_module) = Raise ValueError /\
  snd (new_Particle (H:=SizeRaster) square at_5_5 (mkVector2 infinity 10) (PyInt 0)
         PyNone PyNone 10 import_module) = Raise OverflowError.
Proof.
  split.
  - exact (proj1 (construction_rejects_unroundable_scale (H:=SizeRaster) square at_5_5
                    (mkVector2 nan 10) (PyInt 0) PyNone PyNone 10 import_module ValueError
                    eq_refl eq_refl)).
  - destruct (construction_rejects_unroundable_scale (H:=SizeRaster) square at_5_5
                (mkVector2 infinity 10) (PyInt 0) PyNone PyNone 10 import_module
                OverflowError eq_refl eq_refl) as (_ & Hp & _).
    apply Hp. eexists. reflexivity.
Defined.

(** X10 at work: the rotation [-2^-70], set and then assigned again. *)
Lemma rotation_reassignment_witness :
  exists w',
    bind (GameObject_set_rotation 3%nat (PyFloat (-0x1p-70))) (fun _ =>
    bind (GameObject_rotation 3%nat) (fun r' =>
    bind (GameObject_set_rotation 3%nat r') (fun _ =>
    GameObject_rotation 3%nat))) world_object = (w', Return (PyFloat 0)).
Proof.
  destruct (rotation_reassignment (H:=SizeRaster) 3%nat (PyFloat (-0x1p-70)) world_object _
              eq_refl) as (Hs & _).
  exact Hs.
Defined.

(** X11 at work: the velocity of the default updater is set. *)
Lemma updater_velocity_and_accel_witness :
  exists w1,
    BasicParticleUpdater_set_velocity (H:=SizeRaster) DEFAULT_PARTICLE_MOTION
      (mkVector2 1 2) import_module = (w1, Return tt) /\
    BasicParticleUpdater_velocity DEFAULT_PARTICLE_MOTION w1 = (w1, Return (mkVector2 1 2)) /\
    BasicParticleUpdater_accel DEFAULT_PARTICLE_MOTION w1 = (w1, Return (mkVector2 0 0)).
Proof.
  destruct (updater_velocity_and_accel (H:=SizeRaster) DEFAULT_PARTICLE_MOTION PyNone
              (mkVector2 0 0) (mkVector2 0 0) (mkVector2 1 2) (mkVector2 3 4) import_module
              eq_refl) as (Hs & Hv & Ha & _).
  eexists. split; [exact Hs|]. split; [exact Hv|exact Ha].
Defined.

(** X12 at work: the object of the scene is moved to [(50, 50)]; its
    [rect] is the one of its construction, its hitbox is elsewhere. *)
Lemma rect_is_computed_at_construction_only_witness :
  exists o',
    objects (fst (GameObject_set_position 3%nat (mkVector2 50 50) world_object)) !! 3%nat
      = Some o' /\
    rect o' = Some (mkRect 0 0 10 10) /\
    snd (renderer_hitbox (PyRef DEFAULT_RENDERER) 3%nat
           (fst (GameObject_set_position 3%nat (mkVector2 50 50) world_object)))
      = Return (mkRect 45 45 10 10).
Proof.
  destruct (rect_is_computed_at_construction_only (H:=SizeRaster) 3%nat _ world_object
              3%nat 1 None (mkVector2 50 50) ten_by_ten (PyInt 0) eq_refl)
    as ((o' & Ho' & Hr') & _).
  exists o'. split; [exact Ho'|]. split; [exact Hr'|reflexivity].
Defined.

(** X13 at work: the object at [(5, 5)] is drawn on the surface of 100
    by 100, the one at [(500, 500)] is not. *)
Lemma drawn_when_hitbox_meets_surface_witness :
  (exists texture,
     call_renderer (PyRef DEFAULT_RENDERER) 3%nat 2%nat None 0 world_object
     = (set_surfaces (insert 2%nat
          (mkTarget SizeRaster (100, 100)
             [mkBlit SizeRaster texture
                (5 - get_width texture / 2, 5 - get_height texture / 2) None 0]))
          world_object, Return tt)) /\
  (exists texture : @Surface SizeRaster,
     call_renderer (PyRef DEFAULT_RENDERER) 3%nat 2%nat None 0 world_off_screen
     = (world_off_screen, Return tt)).
Proof.
  split.
  - destruct (drawn_when_hitbox_meets_surface (H:=SizeRaster) DEFAULT_RENDERER 3%nat 2%nat
                None 0 world_object _ (mkTarget SizeRaster (100, 100) [])
                (mkRect 0 0 10 10) at_5_5 5 5
                eq_refl eq_refl eq_refl eq_refl eq_refl eq_refl eq_refl) as (texture & _ & Hc).
    exists texture. exact Hc.
  - destruct (drawn_when_hitbox_meets_surface (H:=SizeRaster) DEFAULT_RENDERER 3%nat 2%nat
                None 0 world_off_screen _ (mkTarget SizeRaster (100, 100) [])
                (mkRect 495 495 10 10) (mkVector2 500 500) 500 500
                eq_refl eq_refl eq_refl eq_refl eq_refl eq_refl eq_refl) as (texture & _ & Hc).
    exists texture. exact Hc.
Defined.
